(** * lidar2depth: a shallow embedding of [src/lidar2depth.cpp]

    The node subscribes to a lidar point cloud and a camera info topic and is
    meant to publish a KITTI-style depth image.  The code of the file is:

    - [depthFromVec] (lines 51-55), a free function;
    - [cloud_callback] (lines 84-151): two [printf]s and the construction of
      a local camera model.  Lines 94-150 of its body are comments and are
      no part of the program; nothing here embeds them;
    - the constructor of [Lidar2Depth] (lines 158-174) and [main]
      (lines 177-187).

    Numbers are IEEE 754 values, modelled with the Standard Library's
    [SpecFloat] (binary32 for [float], binary64 for [double]); integers are
    [Z] with their C++ ranges written out; an operation whose behaviour C++
    leaves undefined yields [None]. *)

From Stdlib Require Import ZArith Bool Lia QArith Qround Qabs Qpower Lqa.
From Stdlib Require Import Floats.SpecFloat.
From stdpp Require Import base option list strings pretty gmap.

Open Scope Z_scope.

(** ** IEEE 754 arithmetic *)

Module Ieee.

(** [float] is binary32 and [double] binary64; both are [spec_float]s, told
    apart by the precision and exponent bound their operations round to. *)
Definition float := spec_float.
Definition double := spec_float.

Definition prec32 : Z := 24.
Definition emax32 : Z := 128.
Definition prec64 : Z := 53.
Definition emax64 : Z := 1024.

Definition dmul : double -> double -> double := SFmul prec64 emax64.
Definition dadd : double -> double -> double := SFadd prec64 emax64.
Definition dsqrt : double -> double := SFsqrt prec64 emax64.

(** Conversion between formats: the value is rounded (to nearest, ties to
    even) to the target format; zeros, infinities and NaN carry over. *)
Definition fl_round (prec emax : Z) (x : spec_float) : spec_float :=
  match x with
  | S754_finite s m e => binary_round prec emax s m e
  | _ => x
  end.

(** [(float) d] and the implicit promotion [(double) f]. *)
Definition to_float : double -> float := fl_round prec32 emax32.
Definition to_double : float -> double := fl_round prec64 emax64.

(** Literals: the integer [n] and the dyadic [n * 2^e] in each format. *)
Definition double_of_Z (n : Z) : double := binary_normalize prec64 emax64 n 0 false.
Definition float_of_dyadic (n e : Z) : float := binary_normalize prec32 emax32 n e false.
Definition float_of_Z (n : Z) : float := float_of_dyadic n 0.

Definition isfinite (x : spec_float) : bool :=
  match x with
  | S754_zero _ | S754_finite _ _ _ => true
  | S754_infinity _ | S754_nan => false
  end.

(** [x < y] and [x > y] on floats; both are false when an operand is NaN. *)
Definition flt : spec_float -> spec_float -> bool := SFltb.

(** The integer part of a finite value, rounded toward zero.  For a negative
    exponent [Z.shiftl] divides, rounding down, which on the non-negative
    mantissa is toward zero. *)
Definition trunc (x : spec_float) : option Z :=
  match x with
  | S754_zero _ => Some 0
  | S754_finite s m e => Some (cond_Zopp s (Z.shiftl (Zpos m) e))
  | S754_infinity _ | S754_nan => None
  end.

(** A floating-integral conversion truncates; the behaviour is undefined when
    the truncated value cannot be represented in the destination type
    (C++ [conv.fpint]). *)
Definition cast_range (lo hi : Z) (x : spec_float) : option Z :=
  n ← trunc x; if (lo <=? n) && (n <? hi) then Some n else None.

Definition cast_ushort : double -> option Z := cast_range 0 65536.

(** The rational a floating-point datum stands for (0 for infinities and
    NaN, which have none). *)
Definition SF2Q (x : spec_float) : Q :=
  match x with
  | S754_finite s m e =>
      match e with
      | Z0 => inject_Z (cond_Zopp s (Zpos m))
      | Zpos p => inject_Z (cond_Zopp s (Zpos m) * 2 ^ Zpos p)
      | Zneg p => Qmake (cond_Zopp s (Zpos m)) (2 ^ p)%positive
      end
  | _ => 0%Q
  end.

End Ieee.
Import Ieee.

(** ** OpenCV: [cv::Point3d], a point with double coordinates *)

Record Point3d := { p3x : double; p3y : double; p3z : double }.

(** ** depthFromVec (lines 51-55) *)

(** [float mag = sqrt(xyz.x*xyz.x + xyz.y*xyz.y + xyz.z*xyz.z);]  The
    products, the sums and the square root are double operations; the
    initialisation of [mag] rounds to float. *)
Definition mag (xyz : Point3d) : float :=
  to_float (dsqrt (dadd (dadd (dmul (p3x xyz) (p3x xyz))
                              (dmul (p3y xyz) (p3y xyz)))
                        (dmul (p3z xyz) (p3z xyz)))).

(** [ushort pixel_val = (ushort)(mag*256.0);]  [mag] is promoted to double,
    multiplied by the double 256.0, and the product is truncated. *)
Definition pixel_val (mag : float) : option Z :=
  cast_ushort (dmul (to_double mag) (double_of_Z 256)).

Definition depthFromVec (xyz : Point3d) : option Z := pixel_val (mag xyz).

(** Modelled from the spec: the decoder, of which the source has only the
    comment of lines 35-44 ([disp = ((float)I)/256.0], [valid = I > 0]).
    The spec's words: decode(v) = 0.0 if v == 0 else v / 256.0.  Every
    unsigned short divided by 256 is a float, so the quotient is exact. *)
Definition decode (v : Z) : Q := if v =? 0 then 0%Q else (inject_Z v / 256)%Q.

(** ** ROS messages *)

Record Header := { seq : Z; stamp : Z; frame_id : string }.

(** [pcl::PointXYZ]: float coordinates. *)
Record PointXYZ := { x : float; y : float; z : float }.

(** [pcl::PointCloud<pcl::PointXYZ>]: the points in storage order. *)
Definition PointCloud := list PointXYZ.

(** [sensor_msgs::PointCloud2], its byte blob read as the points it holds
    (what [pcl_conversions::toPCL] and [pcl::fromPCLPointCloud2] decode). *)
Record PointCloud2 := {
  pc_header : Header;
  pc_height : Z;
  pc_width : Z;
  pc_points : PointCloud
}.

(** [sensor_msgs::CameraInfo]: the image size (uint32) and the entries of the
    3x4 projection matrix [P] that the pinhole model reads. *)
Record CameraInfo := {
  ci_header : Header;
  ci_height : Z;
  ci_width : Z;
  P_fx : double; P_cx : double; P_Tx : double;
  P_fy : double; P_cy : double; P_Ty : double
}.

(** [sensor_msgs::Image], the type of the messages the publisher [pub_]
    takes; the pixel buffer as a finite map from the index to the cell. *)
Record Image := {
  im_header : Header;
  im_height : Z;
  im_width : Z;
  im_encoding : string;
  im_data : gmap Z Z
}.

(** [geometry_msgs::TransformStamped]: translation and rotation quaternion. *)
Record TransformStamped := {
  tf_header : Header;
  child_frame_id : string;
  translation : double * double * double;
  rotation : double * double * double * double
}.

(** ** image_geometry::PinholeCameraModel *)

Record PinholeCameraModel := {
  fx : double; fy : double; cx : double; cy : double; Tx : double; Ty : double
}.

(** [cam_model.fromCameraInfo(cam_info)], for an unbinned full-frame camera:
    the model's projection matrix is the message's. *)
Definition fromCameraInfo (cam_info : CameraInfo) : PinholeCameraModel :=
  {| fx := P_fx cam_info; fy := P_fy cam_info;
     cx := P_cx cam_info; cy := P_cy cam_info;
     Tx := P_Tx cam_info; Ty := P_Ty cam_info |}.

(** ** The node *)

(** What the process does to the outside: text on standard output, warnings
    on the ROS log, and images handed to the publisher. *)
Record World := {
  stdout : list string;
  rosout : list string;
  published : list Image
}.

(** [tf_buffer_.lookupTransform(target, source, time)] returns a transform or
    throws a [tf2::TransformException] carrying a message. *)
Definition TfBuffer := string -> string -> Z -> TransformStamped + string.

(** The members of [Lidar2Depth] the callback can read. *)
Record Lidar2Depth := {
  tf_buffer_ : TfBuffer;
  target_frame_ : string
}.

Definition nl : string := String (Ascii.ascii_of_nat 10) EmptyString.

(** A uint32 printed through [%d] is read back as an int. *)
Definition as_int (n : Z) : Z := if n <? 2 ^ 31 then n else n - 2 ^ 32.

Definition printf (line : string) (w : World) : World :=
  {| stdout := stdout w ++ [line]; rosout := rosout w; published := published w |}.

Definition cloud_line (cloud_msg : PointCloud2) : string :=
  "Cloud: width = " +:+ pretty (as_int (pc_width cloud_msg)) +:+
  ", height = " +:+ pretty (as_int (pc_height cloud_msg)) +:+ nl.

Definition camera_line (cam_info : CameraInfo) : string :=
  "Camera: width = " +:+ pretty (as_int (ci_width cam_info)) +:+
  ", height = " +:+ pretty (as_int (ci_height cam_info)) +:+ nl.

(** *** cloud_callback as compiled (lines 84-93, 151) *)

Definition cloud_callback (self : Lidar2Depth)
    (cloud_msg : PointCloud2) (cam_info : CameraInfo) (w : World)
    : Lidar2Depth * World :=
  let w := printf (cloud_line cloud_msg) w in
  let w := printf (camera_line cam_info) w in
  let cam_model := fromCameraInfo cam_info in
  (self, w).

(** The body of the constructor (lines 160-173) and [main] (lines 177-187):
    the node is built with the empty target frame, prints its line, and the
    callback then runs once per synchronized pair, in order of delivery.
    This is a run in which the member initialisers of line 159 complete: they
    build [sync_] (declared at line 70) from [lidar_sub] and [info_sub]
    (declared at lines 71-72, hence constructed after it), and what
    message_filters does with the two at that moment is not in the source.
    The pairs that reach the callback are an input, [msgs] of [main]. *)
Definition Lidar2Depth_new (tf : TfBuffer) (target_frame : string) (w : World)
    : Lidar2Depth * World :=
  ({| tf_buffer_ := tf; target_frame_ := target_frame |},
   printf ("Node ready" +:+ nl) w).

Fixpoint spin (self : Lidar2Depth) (msgs : list (PointCloud2 * CameraInfo))
    (w : World) : Lidar2Depth * World :=
  match msgs with
  | [] => (self, w)
  | (cloud_msg, cam_info) :: rest =>
      let '(self', w') := cloud_callback self cloud_msg cam_info w in
      spin self' rest w'
  end.

Definition main (tf : TfBuffer) (msgs : list (PointCloud2 * CameraInfo))
    (w : World) : Lidar2Depth * World :=
  let '(l2d, w') := Lidar2Depth_new tf "" w in
  spin l2d msgs w'.

(** ** Concrete inputs *)

(** A [pcl::PointXYZ] as an argument of [depthFromVec]: each float coordinate
    promoted to double. *)
Definition xyz_of (it : PointXYZ) : Point3d :=
  {| p3x := to_double (x it); p3y := to_double (y it); p3z := to_double (z it) |}.


(** The point with integer coordinates [(a, b, c)] and the point with
    coordinates [(a, b, c) * 2^e]. *)
Definition point (a b c : Z) : PointXYZ :=
  {| x := float_of_Z a; y := float_of_Z b; z := float_of_Z c |}.

Definition point_dyadic (a b c e : Z) : PointXYZ :=
  {| x := float_of_dyadic a e; y := float_of_dyadic b e; z := float_of_dyadic c e |}.








(** ** Ranges and error bounds *)

(** The relative steps of the formats and the bound proved for
    [depthFromVec]: [2^-52] (double), [2^-23] (float) and [2^-22]. *)
Definition u64 : Q := 1 # 2 ^ 52.
Definition u32 : Q := 1 # 2 ^ 23.
Definition eps22 : Q := 1 # 2 ^ 22.

(** A double of moderate size: zero, or a normal double with exponent field
    between -500 and 400, that is of magnitude from [2^-448] up to [2^453].
    Squares and sums of three such values neither overflow nor underflow. *)
Definition moderate (c : double) : bool :=
  match c with
  | S754_zero _ => true
  | S754_finite _ m e => (Zpos (digits2_pos m) =? 53) && (-500 <=? e) && (e <=? 400)
  | _ => false
  end.

(** A non-negative double: plus zero, or positive and normal with exponent
    field between [lo] and [hi]. *)
Definition nonneg64 (lo hi : Z) (r : double) : Prop :=
  r = S754_zero false \/
  exists m e, r = S754_finite false m e /\ Zpos (digits2_pos m) = 53 /\ lo <= e <= hi.

(** The exact [x^2 + y^2 + z^2] of a point. *)
Definition sum_of_squares (xyz : Point3d) : Q :=
  (SF2Q (p3x xyz) * SF2Q (p3x xyz) + SF2Q (p3y xyz) * SF2Q (p3y xyz)
   + SF2Q (p3z xyz) * SF2Q (p3z xyz))%Q.

(** ** The spec's numeric rules, for comparison with the code *)

(** Round half away from zero (spec section 4.3). *)
Definition spec_round (q : Q) : Z :=
  if Qle_bool 0 q then Qfloor (q + (1 # 2)) else Qceiling (q - (1 # 2)).

(** The spec's encoder (section 4.5): [round (d * 256)] saturated at 65535,
    and 1 for a zero depth. *)
Definition spec_encode (d : Q) : Z :=
  if Qeq_bool d 0 then 1 else Z.min 65535 (spec_round (256 * d)).

(** ** Checks over the integer grid *)

(** On the point [(a, b, c)], [depthFromVec] returns
    [floor (256 * sqrt (a^2 + b^2 + c^2))]. *)
Definition magnitude_check (a b c : Z) : bool :=
  bool_decide (depthFromVec (xyz_of (point a b c))
               = Some (Z.sqrt (65536 * (a * a + b * b + c * c)))).

Definition grid_check (lo n : Z) : bool :=
  forallb (fun a => forallb (fun b => forallb (magnitude_check a b) (seqZ lo n))
                      (seqZ lo n)) (seqZ lo n).

(** ** The executed callback *)

Lemma cloud_callback_effect self cloud_msg cam_info w :
  cloud_callback self cloud_msg cam_info w =
    (self, {| stdout := stdout w ++ [cloud_line cloud_msg; camera_line cam_info];
              rosout := rosout w; published := published w |}).
Proof.
  unfold cloud_callback, printf; simpl.
  by rewrite <- app_assoc.
Qed.

Lemma spin_keeps self msgs w :
  (spin self msgs w).1 = self /\
  published (spin self msgs w).2 = published w /\
  rosout (spin self msgs w).2 = rosout w.
Proof.
  revert self w; induction msgs as [|[cloud_msg cam_info] rest IH]; intros self w.
  - done.
  - simpl. destruct (IH self (printf (camera_line cam_info) (printf (cloud_line cloud_msg) w)))
      as (Hs & Hp & Hr).
    by rewrite Hs, Hp, Hr.
Qed.

(** C10. Every invocation of the compiled [cloud_callback] returns the object
    as it was and a world that differs only by the two printed lines (cloud
    size, camera size): nothing is published and nothing is logged.  Hence
    the node as [main] runs it, over any sequence of synchronized pairs,
    publishes no image. *)
Theorem cloud_callback_publishes_nothing :
  (forall self cloud_msg cam_info w,
     cloud_callback self cloud_msg cam_info w =
       (self, {| stdout := stdout w ++ [cloud_line cloud_msg; camera_line cam_info];
                 rosout := rosout w; published := published w |})) /\
  (forall tf msgs w, published (main tf msgs w).2 = published w).
Proof.
  split.
  - apply cloud_callback_effect.
  - intros tf msgs w. unfold main, Lidar2Depth_new.
    by destruct (spin_keeps {| tf_buffer_ := tf; target_frame_ := "" |} msgs
                   (printf ("Node ready" +:+ nl) w)) as (_ & -> & _).
Qed.

(** ** Frames on which the node does not do what its documentation says *)

(** The docstring of [cloud_callback] (lines 78-83) says that the callback
    transforms the cloud, projects its points with the pinhole model into a
    depth map and publishes the map.  The theorems of this section run the
    callback on one frame each. *)







(** ** Exact cases of IEEE rounding *)

Lemma digits2_pos_bounds p :
  2 ^ (Zpos (digits2_pos p) - 1) <= Zpos p < 2 ^ Zpos (digits2_pos p).
Proof.
  induction p as [p IH|p IH|]; simpl digits2_pos.
  - rewrite Pos2Z.inj_succ, Z.pow_succ_r by lia.
    replace (Z.succ (Zpos (digits2_pos p)) - 1) with (Z.succ (Zpos (digits2_pos p) - 1)) by lia.
    rewrite Z.pow_succ_r by lia. lia.
  - rewrite Pos2Z.inj_succ, Z.pow_succ_r by lia.
    replace (Z.succ (Zpos (digits2_pos p)) - 1) with (Z.succ (Zpos (digits2_pos p) - 1)) by lia.
    rewrite Z.pow_succ_r by lia. lia.
  - done.
Qed.

Lemma digits2_pos_unique p d :
  2 ^ (d - 1) <= Zpos p < 2 ^ d -> Zpos (digits2_pos p) = d.
Proof.
  intros [Hlo Hhi]. pose proof (digits2_pos_bounds p) as [Hlo' Hhi'].
  assert (0 < d).
  { destruct (Z.lt_trichotomy d 0) as [Hd|[->|Hd]]; [|simpl in Hhi; lia|done].
    rewrite Z.pow_neg_r in Hhi by done. lia. }
  destruct (Z.lt_trichotomy (Zpos (digits2_pos p)) d) as [Hlt|[Heq|Hgt]]; [|done|].
  - assert (2 ^ Zpos (digits2_pos p) <= 2 ^ (d - 1)) by (apply Z.pow_le_mono_r; lia). lia.
  - assert (2 ^ d <= 2 ^ (Zpos (digits2_pos p) - 1)) by (apply Z.pow_le_mono_r; lia). lia.
Qed.

Lemma digits2_pos_shift a m k :
  0 <= k -> Zpos m = Zpos a * 2 ^ k ->
  Zpos (digits2_pos m) = Zpos (digits2_pos a) + k.
Proof.
  intros Hk Hm. apply digits2_pos_unique. rewrite Hm.
  pose proof (digits2_pos_bounds a) as [Hlo Hhi].
  replace (Zpos (digits2_pos a) + k - 1) with ((Zpos (digits2_pos a) - 1) + k) by lia.
  rewrite !Z.pow_add_r by lia.
  assert (0 < 2 ^ k) by (apply Z.pow_pos_nonneg; lia). nia.
Qed.

Lemma iter_xO_Z a n : Zpos (Pos.iter xO a n) = Zpos a * 2 ^ Zpos n.
Proof.
  induction n as [|n IH] using Pos.peano_ind.
  - simpl. lia.
  - rewrite Pos.iter_succ, Pos2Z.inj_succ, Z.pow_succ_r by lia.
    rewrite Pos2Z.inj_xO, IH. lia.
Qed.

(** Shifting out [n] zero bits loses nothing. *)
Lemma iter_shr_1_exact n : forall a,
  SpecFloat.iter_pos shr_1 n {| shr_m := Zpos (Pos.iter xO a n); shr_r := false; shr_s := false |} =
    {| shr_m := Zpos a; shr_r := false; shr_s := false |}.
Proof.
  induction n as [n IH|n IH|]; intros a; simpl.
  - by rewrite !IH.
  - by rewrite !IH.
  - done.
Qed.

Lemma shr_exact a m k e :
  0 <= k -> Zpos m = Zpos a * 2 ^ k ->
  shr {| shr_m := Zpos m; shr_r := false; shr_s := false |} e k =
    ({| shr_m := Zpos a; shr_r := false; shr_s := false |}, e + k).
Proof.
  intros Hk Hm. destruct k as [|k|k]; [| |lia]; simpl.
  - rewrite Z.add_0_r. do 3 f_equal. lia.
  - replace m with (Pos.iter xO a k) by (apply Pos2Z.inj; rewrite iter_xO_Z; lia).
    by rewrite iter_shr_1_exact.
Qed.

(** [binary_round_aux] on a mantissa whose bits below the target exponent
    are all zero returns the value unchanged. *)
Lemma binary_round_aux_exact prec emax s a m k e :
  0 <= k -> Zpos m = Zpos a * 2 ^ k ->
  fexp prec emax (Zpos (digits2_pos m) + e) = e + k ->
  e + k <= emax - prec ->
  binary_round_aux prec emax s (Zpos m) e loc_Exact = S754_finite s a (e + k).
Proof.
  intros Hk Hm Hfexp Hmax.
  pose proof (digits2_pos_shift a m k Hk Hm) as Hd.
  unfold binary_round_aux, shr_fexp. simpl Zdigits2. simpl shr_record_of_loc.
  rewrite Hfexp. replace (e + k - e) with k by lia.
  rewrite (shr_exact a m k e Hk Hm). simpl.
  replace (Zpos (digits2_pos a) + (e + k)) with (Zpos (digits2_pos m) + e) by lia.
  rewrite Hfexp, Z.sub_diag. simpl.
  by rewrite (proj2 (Z.leb_le _ _) Hmax).
Qed.

Lemma shl_align_down mx ex ex' :
  ex' <= ex ->
  exists mz, shl_align mx ex ex' = (mz, ex') /\ Zpos mz = Zpos mx * 2 ^ (ex - ex').
Proof.
  intros Hle. unfold shl_align.
  destruct (ex' - ex) as [|d|d] eqn:Hd; [|lia|].
  - exists mx. replace ex' with ex by lia. rewrite Z.sub_diag. split; [done|simpl; lia].
  - exists (Pos.iter xO mx d). split; [done|].
    rewrite iter_xO_Z. f_equal. f_equal. lia.
Qed.

Lemma shl_align_up mx ex ex' : ex <= ex' -> shl_align mx ex ex' = (mx, ex).
Proof. intros Hle. unfold shl_align. destruct (ex' - ex) eqn:Hd; [done|done|lia]. Qed.

Lemma fexp32_eq x : fexp prec32 emax32 x = Z.max (x - 24) (-149).
Proof. reflexivity. Qed.

Lemma fexp64_eq x : fexp prec64 emax64 x = Z.max (x - 53) (-1074).
Proof. reflexivity. Qed.

(** A binary32 datum: the mantissa has at most 24 bits and the exponent is
    the one its magnitude calls for. *)
Lemma bounded32_inv m e :
  bounded prec32 emax32 m e = true ->
  Z.max (Zpos (digits2_pos m) + e - 24) (-149) = e /\ e <= 104.
Proof.
  unfold bounded, canonical_mantissa. rewrite andb_true_iff, fexp32_eq.
  intros [He Hmax]. apply Z.eqb_eq in He. apply Z.leb_le in Hmax.
  unfold emax32, prec32 in Hmax. lia.
Qed.

(** Promotion to double is exact: the mantissa is shifted to 53 bits. *)
Lemma to_double_finite s m e :
  bounded prec32 emax32 m e = true ->
  exists M, to_double (S754_finite s m e) = S754_finite s M (e + Zpos (digits2_pos m) - 53) /\
            Zpos M = Zpos m * 2 ^ (53 - Zpos (digits2_pos m)) /\
            Zpos (digits2_pos M) = 53.
Proof.
  intros [He Hmax]%bounded32_inv.
  set (d := Zpos (digits2_pos m)) in *.
  assert (1 <= d) by (unfold d; lia).
  unfold to_double, fl_round, binary_round. fold d.
  rewrite fexp64_eq.
  destruct (shl_align_down m e (Z.max (d + e - 53) (-1074))) as (M & -> & HM); [lia|].
  replace (Z.max (d + e - 53) (-1074)) with (e + d - 53) in * by lia.
  replace (e - (e + d - 53)) with (53 - d) in HM by lia.
  assert (Zpos (digits2_pos M) = 53) as HdM.
  { rewrite (digits2_pos_shift m M (53 - d)); [fold d; lia|lia|done]. }
  exists M. split; [|done].
  rewrite <- (Z.add_0_r (e + d - 53)) at 2.
  apply binary_round_aux_exact; [done|lia| |unfold emax64, prec64; lia].
  rewrite HdM, fexp64_eq. lia.
Qed.

Lemma double_256 : double_of_Z 256 = S754_finite false (2 ^ 52) (-44).
Proof. reflexivity. Qed.

(** Multiplying a promoted float by 256.0 adds 8 to its exponent. *)
Lemma dmul_256 s M E :
  Zpos (digits2_pos M) = 53 -> -1074 <= E + 8 <= 971 ->
  dmul (S754_finite s M E) (double_of_Z 256) = S754_finite s M (E + 8).
Proof.
  intros HdM HE. rewrite double_256. unfold dmul, SFmul. rewrite xorb_false_r.
  replace (E + 8) with (E + -44 + 52) by lia.
  assert (Zpos (M * 2 ^ 52) = Zpos M * 2 ^ 52) as HM by (rewrite Pos2Z.inj_mul; done).
  apply binary_round_aux_exact; [done|done| |unfold emax64, prec64; lia].
  rewrite (digits2_pos_shift M (M * 2 ^ 52) 52), HdM, fexp64_eq by done. lia.
Qed.

(** The encoder on a finite float [m * 2^e] of either sign: the integer part
    of [m * 2^(e+8)], when an unsigned short holds it. *)
Lemma pixel_val_finite s m e :
  bounded prec32 emax32 m e = true ->
  pixel_val (S754_finite s m e) =
    let n := cond_Zopp s (Z.shiftl (Zpos m) (e + 8)) in
    if (0 <=? n) && (n <? 65536) then Some n else None.
Proof.
  intros Hb. destruct (to_double_finite s m e Hb) as (M & HM & HMm & HdM).
  destruct (bounded32_inv m e Hb) as [He Hmax].
  unfold pixel_val. rewrite HM, dmul_256 by (done || lia).
  unfold cast_ushort, cast_range, trunc. simpl.
  rewrite HMm, <- Z.shiftl_mul_pow2, Z.shiftl_shiftl by lia.
  by replace (53 - Zpos (digits2_pos m) + (e + Zpos (digits2_pos m) - 53 + 8)) with (e + 8) by lia.
Qed.

(** ** Values of floats as rationals *)

Lemma Qfloor_mul_pow2 (a : Z) (p : positive) (k : Z) :
  0 <= k ->
  Qfloor (inject_Z (2 ^ k) * Qmake a (2 ^ p)) = Z.shiftl a (k - Zpos p).
Proof.
  intros Hk. unfold Qfloor, Qmult, inject_Z; simpl Qnum; simpl Qden.
  rewrite Pos.mul_1_l, Pos2Z.inj_pow.
  assert (0 < 2 ^ Zpos p) by (apply Z.pow_pos_nonneg; lia).
  destruct (Z.le_gt_cases (Zpos p) k) as [Hle|Hgt].
  - rewrite Z.shiftl_mul_pow2 by lia.
    replace (2 ^ k) with (2 ^ (k - Zpos p) * 2 ^ Zpos p)
      by (rewrite <- Z.pow_add_r by lia; f_equal; lia).
    rewrite (Z.mul_comm (2 ^ (k - Zpos p) * _)), Z.mul_assoc, Z.div_mul by lia. done.
  - rewrite Z.shiftl_div_pow2 by lia.
    replace (2 ^ Zpos p) with (2 ^ k * 2 ^ (- (k - Zpos p)))
      by (rewrite <- Z.pow_add_r by lia; f_equal; lia).
    assert (0 < 2 ^ k) by (apply Z.pow_pos_nonneg; lia).
    assert (0 < 2 ^ (- (k - Zpos p))) by (apply Z.pow_pos_nonneg; lia).
    rewrite Z.div_mul_cancel_l by lia. done.
Qed.

(** [floor (2^k * |x|)] is the mantissa shifted by the exponent plus [k]. *)
Lemma Qfloor_scaled m e k :
  0 <= k ->
  Qfloor (inject_Z (2 ^ k) * SF2Q (S754_finite false m e)) = Z.shiftl (Zpos m) (e + k).
Proof.
  intros Hk. destruct e as [|p|p]; simpl SF2Q.
  - unfold Qfloor, Qmult, inject_Z; simpl Qnum; simpl Qden.
    change (Zpos (1 * 1)) with 1.
    rewrite Z.div_1_r, Z.shiftl_mul_pow2, Z.add_0_l by lia. lia.
  - unfold Qfloor, Qmult, inject_Z; simpl Qnum; simpl Qden.
    change (Zpos (1 * 1)) with 1.
    rewrite Z.div_1_r, Z.shiftl_mul_pow2, Z.pow_add_r by lia. lia.
  - rewrite Qfloor_mul_pow2 by done. f_equal. lia.
Qed.

Lemma SF2Q_pos m e : (0 < SF2Q (S754_finite false m e))%Q.
Proof.
  destruct e as [|p|p]; simpl; unfold Qlt; simpl; lia.
Qed.

Lemma SF2Q_opp s m e :
  SF2Q (S754_finite (negb s) m e) = Qopp (SF2Q (S754_finite s m e)).
Proof.
  destruct e as [|p|p], s; simpl; unfold Qopp, inject_Z; simpl; try done;
    f_equal; lia.
Qed.

(** The encoder on a non-negative finite float: [floor (256 * mag)]. *)
Lemma pixel_val_floor mag :
  valid_binary prec32 emax32 mag = true -> isfinite mag = true -> (0 <= SF2Q mag)%Q ->
  pixel_val mag =
    if Qfloor (256 * SF2Q mag) <? 65536 then Some (Qfloor (256 * SF2Q mag)) else None.
Proof.
  destruct mag as [s|s| |s m e]; try done; intros Hb _ Hnn.
  destruct s.
  { change true with (negb false) in Hnn. rewrite SF2Q_opp in Hnn.
    pose proof (SF2Q_pos m e). lra. }
  rewrite pixel_val_finite by done. simpl cond_Zopp.
  change 256%Q with (inject_Z (2 ^ 8)). rewrite Qfloor_scaled by done.
  assert (0 <= Z.shiftl (Zpos m) (e + 8)) as H0 by (apply Z.shiftl_nonneg; lia).
  cbv zeta. by rewrite (proj2 (Z.leb_le _ _) H0).
Qed.

(** ** The encoder *)

(** C3. On a finite float [mag >= 0] the encoder of [depthFromVec],
    [(ushort)(mag*256.0)], returns [floor (256 * mag)] when [mag < 256]: it
    truncates, and a zero magnitude gives 0.  From 256 on the conversion has
    no defined result; nothing saturates. *)
Theorem pixel_val_truncates (mag : float) :
  valid_binary prec32 emax32 mag = true -> isfinite mag = true -> (0 <= SF2Q mag)%Q ->
  ((SF2Q mag < 256)%Q -> pixel_val mag = Some (Qfloor (256 * SF2Q mag))) /\
  ((256 <= SF2Q mag)%Q -> pixel_val mag = None).
Proof.
  intros Hb Hfin Hnn. rewrite (pixel_val_floor mag Hb Hfin Hnn). split; intros Hm.
  - assert (Qfloor (256 * SF2Q mag) < 65536) as Hlt.
    { pose proof (Qfloor_le (256 * SF2Q mag)) as Hlo.
      apply Z.lt_nge. intros Hge.
      assert (inject_Z 65536 <= inject_Z (Qfloor (256 * SF2Q mag)))%Q as Hq
        by (rewrite <- Zle_Qle; done).
      unfold inject_Z at 1 in Hq. lra. }
    by rewrite (proj2 (Z.ltb_lt _ _) Hlt).
  - assert (65536 <= Qfloor (256 * SF2Q mag)) as Hge.
    { change 65536 with (Qfloor (inject_Z 65536)). apply Qfloor_resp_le.
      unfold inject_Z. lra. }
    by rewrite (proj2 (Z.ltb_ge _ _) Hge).
Qed.

(** C3, an instance: [mag = 1.5/256]. *)
Lemma pixel_val_truncates_witness :
  valid_binary prec32 emax32 (float_of_dyadic 3 (-9)) = true /\
  isfinite (float_of_dyadic 3 (-9)) = true /\
  (0 <= SF2Q (float_of_dyadic 3 (-9)))%Q /\
  ((SF2Q (float_of_dyadic 3 (-9)) < 256)%Q ->
     pixel_val (float_of_dyadic 3 (-9))
       = Some (Qfloor (256 * SF2Q (float_of_dyadic 3 (-9))))) /\
  ((256 <= SF2Q (float_of_dyadic 3 (-9)))%Q -> pixel_val (float_of_dyadic 3 (-9)) = None).
Proof.
  split; [reflexivity|]. split; [reflexivity|]. split; [by vm_compute|].
  apply (pixel_val_truncates (float_of_dyadic 3 (-9))); [reflexivity|reflexivity|by vm_compute].
Defined.

(** C3, the claim as stated fails, on each of its three points: a zero depth
    is encoded as 0 where the spec's encoder gives 1; 1.5/256 is encoded as
    1 where rounding gives 2; 256.0 has no encoding where saturation gives
    65535. *)
Lemma pixel_val_not_rounded_clamped_saturated :
  pixel_val (float_of_Z 0) = Some 0 /\
  depthFromVec (xyz_of (point 0 0 0)) = Some 0 /\
  spec_encode (SF2Q (float_of_Z 0)) = 1 /\
  pixel_val (float_of_dyadic 3 (-9)) = Some 1 /\
  spec_encode (SF2Q (float_of_dyadic 3 (-9))) = 2 /\
  pixel_val (float_of_Z 256) = None /\
  spec_encode (SF2Q (float_of_Z 256)) = 65535.
Proof. by vm_compute. Qed.

(** C7. For every finite float [mag] in (0, 65535/256] the encoder returns
    an unsigned short [v] whose decoding is at most [mag] and less than
    1/256 below it: the round trip loses less than one quantisation step,
    always downward. *)
Theorem decode_pixel_val_within_step (mag : float) :
  valid_binary prec32 emax32 mag = true -> isfinite mag = true ->
  (0 < SF2Q mag)%Q -> (SF2Q mag <= 65535 # 256)%Q ->
  exists v, pixel_val mag = Some v /\ 0 <= v <= 65535 /\
            (decode v <= SF2Q mag)%Q /\ (SF2Q mag < decode v + (1 # 256))%Q.
Proof.
  intros Hb Hfin Hpos Hmax.
  pose proof (Qfloor_le (256 * SF2Q mag)) as Hlo.
  pose proof (Qlt_floor (256 * SF2Q mag)) as Hhi.
  set (v := Qfloor (256 * SF2Q mag)) in *.
  assert (0 <= v <= 65535) as Hv.
  { split.
    - change 0 with (Qfloor 0). apply Qfloor_resp_le. lra.
    - change 65535 with (Qfloor (inject_Z 65535)). apply Qfloor_resp_le.
      unfold inject_Z. lra. }
  exists v. rewrite pixel_val_floor by (done || lra). fold v.
  rewrite (proj2 (Z.ltb_lt v 65536)) by lia.
  split; [done|]. split; [done|].
  rewrite inject_Z_plus in Hhi. change (inject_Z 1) with 1%Q in Hhi.
  clearbody v. unfold decode. destruct (v =? 0) eqn:Hz.
  - apply Z.eqb_eq in Hz. subst v. change (inject_Z 0) with 0%Q in *. lra.
  - change (inject_Z v / 256)%Q with (inject_Z v * (1 # 256))%Q. lra.
Qed.

(** C7, an instance: [mag = 1.75/256]. *)
Lemma decode_pixel_val_within_step_witness :
  valid_binary prec32 emax32 (float_of_dyadic 7 (-10)) = true /\
  isfinite (float_of_dyadic 7 (-10)) = true /\
  (0 < SF2Q (float_of_dyadic 7 (-10)))%Q /\
  (SF2Q (float_of_dyadic 7 (-10)) <= 65535 # 256)%Q /\
  exists v, pixel_val (float_of_dyadic 7 (-10)) = Some v /\ 0 <= v <= 65535 /\
            (decode v <= SF2Q (float_of_dyadic 7 (-10)))%Q /\
            (SF2Q (float_of_dyadic 7 (-10)) < decode v + (1 # 256))%Q.
Proof.
  split; [reflexivity|]. split; [reflexivity|]. split; [by vm_compute|]. split; [by vm_compute|].
  apply (decode_pixel_val_within_step (float_of_dyadic 7 (-10))); by vm_compute.
Defined.

(** C7, the claim as stated fails: [d = 1.75/256] lies in the range, is
    encoded as 1 (by the encoder and by [depthFromVec] on the axis point at
    that depth), and 1 decodes to 1/256, which is 3/1024 below [d], more
    than 1/512. *)
Lemma decode_pixel_val_not_within_half_step :
  (0 < SF2Q (float_of_dyadic 7 (-10)))%Q /\
  (SF2Q (float_of_dyadic 7 (-10)) <= 65535 # 256)%Q /\
  pixel_val (float_of_dyadic 7 (-10)) = Some 1 /\
  depthFromVec (xyz_of (point_dyadic 0 0 7 (-10))) = Some 1 /\
  (SF2Q (float_of_dyadic 7 (-10)) - decode 1 == 3 # 1024)%Q /\
  ~ (Qabs (decode 1 - SF2Q (float_of_dyadic 7 (-10))) <= 1 # 512)%Q.
Proof.
  split; [by vm_compute|]. split; [by vm_compute|].
  split; [by vm_compute|]. split; [by vm_compute|]. split; [by vm_compute|].
  by vm_compute.
Qed.

(** ** The magnitude of a point on the optical axis *)

Lemma Zpos_digits_53_bounds M : Zpos (digits2_pos M) = 53 -> 2 ^ 52 <= Zpos M < 2 ^ 53.
Proof. intros H. pose proof (digits2_pos_bounds M) as Hb. by rewrite H in Hb. Qed.

(** The square of a promoted float is exact in double. *)
Lemma dmul_square s m e M E :
  bounded prec32 emax32 m e = true ->
  E = e + Zpos (digits2_pos m) - 53 ->
  Zpos M = Zpos m * 2 ^ (53 - Zpos (digits2_pos m)) ->
  Zpos (digits2_pos M) = 53 ->
  exists a k, dmul (S754_finite s M E) (S754_finite s M E) = S754_finite false a (E + E + k) /\
              (k = 52 \/ k = 53) /\ Zpos a * 2 ^ k = Zpos M * Zpos M /\
              Zpos (digits2_pos a) = 53.
Proof.
  intros [He Hmax]%bounded32_inv HE HM HdM.
  set (d := Zpos (digits2_pos m)) in *.
  assert (1 <= d) by (unfold d; lia).
  pose proof (Zpos_digits_53_bounds M HdM) as [HMlo HMhi].
  pose proof (digits2_pos_bounds (M * M)) as [HDlo HDhi].
  set (D := Zpos (digits2_pos (M * M))) in *.
  rewrite Pos2Z.inj_mul in HDlo, HDhi.
  assert (2 ^ 104 <= Zpos M * Zpos M < 2 ^ 106) as [Hsqlo Hsqhi].
  { change (2 ^ 104) with (2 ^ 52 * 2 ^ 52). change (2 ^ 106) with (2 ^ 53 * 2 ^ 53). nia. }
  assert (105 <= D <= 106) as HD.
  { split.
    - destruct (Z.le_gt_cases 105 D) as [|Hlt]; [done|].
      assert (2 ^ D <= 2 ^ 104) by (apply Z.pow_le_mono_r; lia). lia.
    - destruct (Z.le_gt_cases D 106) as [|Hgt]; [done|].
      assert (2 ^ 106 <= 2 ^ (D - 1)) by (apply Z.pow_le_mono_r; lia). lia. }
  set (k := D - 53).
  set (A := Zpos m * Zpos m * 2 ^ (2 * (53 - d) - k)).
  assert (0 < 2 ^ (2 * (53 - d) - k)) by (apply Z.pow_pos_nonneg; lia).
  assert (0 < A) as HA by (unfold A; nia).
  assert (Zpos (Z.to_pos A) * 2 ^ k = Zpos M * Zpos M) as Hak.
  { rewrite Z2Pos.id by done. unfold A. rewrite HM.
    rewrite <- Z.mul_assoc, <- Z.pow_add_r by lia.
    replace (2 * (53 - d) - k + k) with ((53 - d) + (53 - d)) by lia.
    rewrite Z.pow_add_r by lia. lia. }
  assert (Zpos (digits2_pos (M * M)) = Zpos (digits2_pos (Z.to_pos A)) + k) as Hdig.
  { apply digits2_pos_shift; [lia|]. rewrite Pos2Z.inj_mul. lia. }
  exists (Z.to_pos A), k. split; [|split; [lia|split; [done|fold D in Hdig; lia]]].
  unfold dmul, SFmul. rewrite xorb_nilpotent.
  apply binary_round_aux_exact; [lia|rewrite Pos2Z.inj_mul; lia| |unfold emax64, prec64; lia].
  fold D. rewrite fexp64_eq. lia.
Qed.

(** The double square root of that square is exact. *)
Lemma dsqrt_square M E a k :
  Zpos (digits2_pos M) = 53 -> -1074 <= E <= 971 ->
  (k = 52 \/ k = 53) -> Zpos a * 2 ^ k = Zpos M * Zpos M ->
  Zpos (digits2_pos a) = 53 ->
  dsqrt (S754_finite false a (E + E + k)) = S754_finite false M E.
Proof.
  intros HdM HE Hk Hak Hda.
  unfold dsqrt, SFsqrt, SFsqrt_core_binary. simpl Zdigits2. rewrite Hda, fexp64_eq.
  rewrite !Z.div2_div.
  assert ((53 + (E + E + k) + 1) / 2 = E + 53) as ->.
  { symmetry. destruct Hk as [-> | ->];
      [apply Z.div_unique with (r := 0)|apply Z.div_unique with (r := 1)]; lia. }
  assert ((E + E + k) / 2 = E + 26) as ->.
  { symmetry. destruct Hk as [-> | ->];
      [apply Z.div_unique with (r := 0)|apply Z.div_unique with (r := 1)]; lia. }
  replace (Z.min (Z.max (E + 53 - 53) (-1074)) (E + 26)) with E by lia.
  replace (E + E + k - 2 * E) with k by lia.
  assert (match k with
          | Z0 => Zpos a
          | Zpos _ => Z.shiftl (Zpos a) k
          | Zneg _ => 0
          end = Zpos M * Zpos M) as ->.
  { rewrite <- Hak. destruct Hk as [-> | ->]; by rewrite Z.shiftl_mul_pow2. }
  pose proof (Z.sqrtrem_spec (Zpos M * Zpos M) ltac:(lia)) as Hsq.
  destruct (Z.sqrtrem (Zpos M * Zpos M)) as [q r]. destruct Hsq as [Hsq Hr].
  assert (q = Zpos M) as -> by nia.
  assert (r = 0) as -> by lia.
  simpl Z.eqb. cbv iota.
  rewrite <- (Z.add_0_r E) at 2.
  apply binary_round_aux_exact; [done|lia| |unfold emax64, prec64; lia].
  rewrite HdM, fexp64_eq. lia.
Qed.

(** Rounding a promoted float back to float returns it. *)
Lemma to_float_to_double s m e M E :
  bounded prec32 emax32 m e = true ->
  E = e + Zpos (digits2_pos m) - 53 ->
  Zpos M = Zpos m * 2 ^ (53 - Zpos (digits2_pos m)) ->
  Zpos (digits2_pos M) = 53 ->
  to_float (S754_finite s M E) = S754_finite s m e.
Proof.
  intros [He Hmax]%bounded32_inv -> HM HdM.
  set (d := Zpos (digits2_pos m)) in *.
  assert (1 <= d) by (unfold d; lia).
  unfold to_float, fl_round, binary_round.
  rewrite HdM, fexp32_eq, shl_align_up by lia.
  replace e with (e + d - 53 + (53 - d)) at 2 by lia.
  apply binary_round_aux_exact; [lia|done| |unfold emax32, prec32; lia].
  rewrite HdM, fexp32_eq. lia.
Qed.

Lemma mag_on_axis sx sy vz :
  valid_binary prec32 emax32 vz = true -> isfinite vz = true ->
  mag (xyz_of {| x := S754_zero sx; y := S754_zero sy; z := vz |}) = SFabs vz.
Proof.
  intros Hb Hfin. unfold mag, xyz_of; simpl p3x; simpl p3y; simpl p3z.
  change (to_double (S754_zero sx)) with (S754_zero sx).
  change (to_double (S754_zero sy)) with (S754_zero sy).
  change (dmul (S754_zero sx) (S754_zero sx)) with (S754_zero (xorb sx sx)).
  change (dmul (S754_zero sy) (S754_zero sy)) with (S754_zero (xorb sy sy)).
  rewrite !xorb_nilpotent.
  change (dadd (S754_zero false) (S754_zero false)) with (S754_zero false).
  destruct vz as [s|s| |s m e]; try done.
  - change (to_double (S754_zero s)) with (S754_zero s).
    change (dmul (S754_zero s) (S754_zero s)) with (S754_zero (xorb s s)).
    by rewrite xorb_nilpotent.
  - simpl in Hb.
    destruct (to_double_finite s m e Hb) as (M & -> & HM & HdM).
    destruct (dmul_square s m e M _ Hb eq_refl HM HdM) as (a & k & -> & Hk & Hak & Hda).
    change (dadd (S754_zero false) (S754_finite false a ?e)) with (S754_finite false a e).
    destruct (bounded32_inv m e Hb) as [He Hmax].
    rewrite (dsqrt_square M _ a k HdM) by (done || lia).
    by apply to_float_to_double.
Qed.

(** C1, the claim as stated fails: the point (3, 0, 4) has [z = 4 > 0];
    [depthFromVec] returns 1280, the encoding of its magnitude 5, and not
    1024, the encoding of its forward distance 4. *)
Lemma depthFromVec_encodes_magnitude_not_z :
  flt (float_of_Z 0) (z (point 3 0 4)) = true /\
  depthFromVec (xyz_of (point 3 0 4)) = Some 1280 /\
  pixel_val (z (point 3 0 4)) = Some 1024 /\
  pixel_val (float_of_Z 5) = Some 1280.
Proof. by vm_compute. Qed.

(** *** Magnitudes on the integer grid *)

Lemma grid_check_spec lo n :
  grid_check lo n = true ->
  forall a b c, lo <= a < lo + n -> lo <= b < lo + n -> lo <= c < lo + n ->
    magnitude_check a b c = true.
Proof.
  unfold grid_check. intros H a b c Ha Hb Hc.
  rewrite forallb_forall in H.
  specialize (H a (proj1 (list_elem_of_In _ _) (proj2 (elem_of_seqZ _ _ _) Ha))).
  rewrite forallb_forall in H.
  specialize (H b (proj1 (list_elem_of_In _ _) (proj2 (elem_of_seqZ _ _ _) Hb))).
  rewrite forallb_forall in H.
  exact (H c (proj1 (list_elem_of_In _ _) (proj2 (elem_of_seqZ _ _ _) Hc))).
Qed.

(** X1. For every point with integer coordinates between -6 and 6,
    [depthFromVec] returns [floor (256 * sqrt (a^2 + b^2 + c^2))]: the
    magnitude, whatever the sign or the axis of the coordinates. *)
Theorem depthFromVec_integer_grid (a b c : Z) :
  -6 <= a <= 6 -> -6 <= b <= 6 -> -6 <= c <= 6 ->
  depthFromVec (xyz_of (point a b c)) = Some (Z.sqrt (65536 * (a * a + b * b + c * c))).
Proof.
  intros Ha Hb Hc.
  assert (grid_check (-6) 13 = true) as H by (vm_compute; reflexivity).
  pose proof (grid_check_spec _ _ H a b c ltac:(lia) ltac:(lia) ltac:(lia)) as Hm.
  unfold magnitude_check in Hm. by apply bool_decide_eq_true in Hm.
Qed.

(** An instance: the point (3, 4) of the plane [y = 0]. *)
Lemma depthFromVec_integer_grid_witness :
  -6 <= 3 <= 6 /\ -6 <= 0 <= 6 /\ -6 <= 4 <= 6 /\
  depthFromVec (xyz_of (point 3 0 4)) = Some (Z.sqrt (65536 * (3 * 3 + 0 * 0 + 4 * 4))).
Proof.
  split; [lia|]. split; [lia|]. split; [lia|].
  apply (depthFromVec_integer_grid 3 0 4); lia.
Defined.

(** ** depthFromVec: symmetries and inputs without a value *)

Lemma dmul_square_abs v : dmul v v = dmul (SFabs v) (SFabs v).
Proof. destruct v as [s|s| |s m e]; simpl; try done; by rewrite ?xorb_nilpotent. Qed.

Lemma SFadd_comm prec emax a b : SFadd prec emax a b = SFadd prec emax b a.
Proof.
  destruct a as [sa|sa| |sa ma ea], b as [sb|sb| |sb mb eb]; try done; simpl.
  - by destruct sa, sb.
  - by destruct sa, sb.
  - by rewrite (Z.min_comm eb ea), Z.add_comm.
Qed.

(** X2. [depthFromVec] sees only the absolute values of the coordinates, and
    exchanging [x] and [y] does not change its result: the sign of no
    coordinate, the forward one included, reaches the encoded value. *)
Theorem depthFromVec_symmetric (a b c : double) :
  depthFromVec {| p3x := a; p3y := b; p3z := c |}
    = depthFromVec {| p3x := SFabs a; p3y := SFabs b; p3z := SFabs c |} /\
  depthFromVec {| p3x := a; p3y := b; p3z := c |}
    = depthFromVec {| p3x := b; p3y := a; p3z := c |}.
Proof.
  unfold depthFromVec, mag; simpl p3x; simpl p3y; simpl p3z. split.
  - by rewrite <- !dmul_square_abs.
  - unfold dadd. by rewrite (SFadd_comm _ _ (dmul a a)).
Qed.

(** A value that is plus infinity or NaN. *)
Lemma dadd_no_value_l a b :
  a = S754_infinity false \/ a = S754_nan ->
  dadd a b = S754_infinity false \/ dadd a b = S754_nan.
Proof. intros [-> | ->]; destruct b as [s|[]| |s m e]; simpl; auto. Qed.

Lemma dadd_no_value_r a b :
  b = S754_infinity false \/ b = S754_nan ->
  dadd a b = S754_infinity false \/ dadd a b = S754_nan.
Proof. unfold dadd. rewrite SFadd_comm. apply dadd_no_value_l. Qed.

Lemma dmul_square_no_value v :
  isfinite v = false -> dmul v v = S754_infinity false \/ dmul v v = S754_nan.
Proof. destruct v as [s|[]| |s m e]; simpl; try done; auto. Qed.

Lemma pixel_val_no_value m :
  m = S754_infinity false \/ m = S754_nan -> pixel_val m = None.
Proof. by intros [-> | ->]. Qed.

(** X3. When a coordinate is an infinity or NaN, the magnitude is plus
    infinity or NaN and its conversion to unsigned short is undefined:
    [depthFromVec] has no value. *)
Theorem depthFromVec_not_finite (xyz : Point3d) :
  isfinite (p3x xyz) && isfinite (p3y xyz) && isfinite (p3z xyz) = false ->
  depthFromVec xyz = None.
Proof.
  intros H. unfold depthFromVec. apply pixel_val_no_value.
  assert (dadd (dadd (dmul (p3x xyz) (p3x xyz)) (dmul (p3y xyz) (p3y xyz)))
               (dmul (p3z xyz) (p3z xyz)) = S754_infinity false \/
          dadd (dadd (dmul (p3x xyz) (p3x xyz)) (dmul (p3y xyz) (p3y xyz)))
               (dmul (p3z xyz) (p3z xyz)) = S754_nan) as Hsum.
  { rewrite !andb_false_iff in H. destruct H as [[Hx|Hy]|Hz].
    - apply dadd_no_value_l, dadd_no_value_l. by apply dmul_square_no_value.
    - apply dadd_no_value_l, dadd_no_value_r. by apply dmul_square_no_value.
    - apply dadd_no_value_r. by apply dmul_square_no_value. }
  unfold mag. destruct Hsum as [-> | ->]; auto.
Qed.

(** X3, an instance: a NaN as [y]. *)
Lemma depthFromVec_not_finite_witness :
  isfinite (p3x {| p3x := double_of_Z 1; p3y := S754_nan; p3z := double_of_Z 2 |})
  && isfinite (p3y {| p3x := double_of_Z 1; p3y := S754_nan; p3z := double_of_Z 2 |})
  && isfinite (p3z {| p3x := double_of_Z 1; p3y := S754_nan; p3z := double_of_Z 2 |}) = false /\
  depthFromVec {| p3x := double_of_Z 1; p3y := S754_nan; p3z := double_of_Z 2 |} = None.
Proof.
  split; [reflexivity|].
  apply (depthFromVec_not_finite {| p3x := double_of_Z 1; p3y := S754_nan; p3z := double_of_Z 2 |}).
  reflexivity.
Defined.

(** ** The encoder on and between the grid values *)

Lemma valid_binary_SFabs prec emax v :
  valid_binary prec emax (SFabs v) = valid_binary prec emax v.
Proof. by destruct v. Qed.

Lemma isfinite_SFabs v : isfinite (SFabs v) = isfinite v.
Proof. by destruct v. Qed.

Lemma SF2Q_SFabs_nonneg v : (0 <= SF2Q (SFabs v))%Q.
Proof.
  destruct v as [s|s| |s m e]; simpl SFabs; try (simpl; lra).
  pose proof (SF2Q_pos m e). lra.
Qed.

Lemma pixel_val_below_256 m :
  valid_binary prec32 emax32 m = true -> isfinite m = true ->
  (0 <= SF2Q m)%Q -> (SF2Q m < 256)%Q ->
  pixel_val m = Some (Qfloor (256 * SF2Q m)).
Proof.
  intros Hb Hfin Hnn Hlt. rewrite (pixel_val_floor m Hb Hfin Hnn).
  assert (Qfloor (256 * SF2Q m) < 65536) as H.
  { pose proof (Qfloor_le (256 * SF2Q m)) as Hlo.
    apply Z.lt_nge. intros Hge.
    assert (inject_Z 65536 <= inject_Z (Qfloor (256 * SF2Q m)))%Q as Hq
      by (rewrite <- Zle_Qle; done).
    unfold inject_Z at 1 in Hq. lra. }
  by rewrite (proj2 (Z.ltb_lt _ _) H).
Qed.

Lemma pixel_val_from_256 m :
  valid_binary prec32 emax32 m = true -> isfinite m = true ->
  (256 <= SF2Q m)%Q -> pixel_val m = None.
Proof.
  intros Hb Hfin Hge. rewrite (pixel_val_floor m Hb Hfin) by lra.
  assert (65536 <= Qfloor (256 * SF2Q m)) as H.
  { change 65536 with (Qfloor (inject_Z 65536)). apply Qfloor_resp_le.
    unfold inject_Z. lra. }
  by rewrite (proj2 (Z.ltb_ge _ _) H).
Qed.

(** X4. For a point on the optical axis ([x] and [y] zero of either sign,
    [z] any finite float) the result is [floor (256 * |z|)] when [|z| < 256],
    and there is none from 256 on. *)
Theorem depthFromVec_optical_axis (sx sy : bool) (vz : float) :
  valid_binary prec32 emax32 vz = true -> isfinite vz = true ->
  ((SF2Q (SFabs vz) < 256)%Q ->
     depthFromVec (xyz_of {| x := S754_zero sx; y := S754_zero sy; z := vz |})
       = Some (Qfloor (256 * SF2Q (SFabs vz)))) /\
  ((256 <= SF2Q (SFabs vz))%Q ->
     depthFromVec (xyz_of {| x := S754_zero sx; y := S754_zero sy; z := vz |}) = None).
Proof.
  intros Hb Hfin. unfold depthFromVec. rewrite mag_on_axis by done. split; intros H.
  - apply pixel_val_below_256; [by rewrite valid_binary_SFabs|by rewrite isfinite_SFabs| |done].
    apply SF2Q_SFabs_nonneg.
  - apply pixel_val_from_256; [by rewrite valid_binary_SFabs|by rewrite isfinite_SFabs|done].
Qed.

(** X4, an instance: [z = -2.5]. *)
Lemma depthFromVec_optical_axis_witness :
  valid_binary prec32 emax32 (float_of_dyadic (-5) (-1)) = true /\
  isfinite (float_of_dyadic (-5) (-1)) = true /\
  ((SF2Q (SFabs (float_of_dyadic (-5) (-1))) < 256)%Q ->
     depthFromVec (xyz_of {| x := S754_zero false; y := S754_zero true;
                             z := float_of_dyadic (-5) (-1) |})
       = Some (Qfloor (256 * SF2Q (SFabs (float_of_dyadic (-5) (-1)))))) /\
  ((256 <= SF2Q (SFabs (float_of_dyadic (-5) (-1))))%Q ->
     depthFromVec (xyz_of {| x := S754_zero false; y := S754_zero true;
                             z := float_of_dyadic (-5) (-1) |}) = None).
Proof.
  split; [reflexivity|]. split; [reflexivity|].
  apply (depthFromVec_optical_axis false true (float_of_dyadic (-5) (-1))); reflexivity.
Defined.

(** The float [n / 256] for an unsigned short [n > 0]. *)
Lemma float_of_ushort_256 (p : positive) :
  Zpos p < 65536 ->
  exists mz, float_of_dyadic (Zpos p) (-8)
               = S754_finite false mz (Zpos (digits2_pos p) - 32) /\
             Zpos mz = Zpos p * 2 ^ (24 - Zpos (digits2_pos p)) /\
             bounded prec32 emax32 mz (Zpos (digits2_pos p) - 32) = true.
Proof.
  intros Hp. pose proof (digits2_pos_bounds p) as [Hlo Hhi].
  set (d := Zpos (digits2_pos p)) in *.
  assert (1 <= d <= 16) as Hd.
  { split; [unfold d; lia|].
    destruct (Z.le_gt_cases d 16) as [|Hgt]; [done|].
    assert (2 ^ 16 <= 2 ^ (d - 1)) by (apply Z.pow_le_mono_r; lia).
    change (2 ^ 16) with 65536 in *. lia. }
  unfold float_of_dyadic, binary_normalize, binary_round. fold d. rewrite fexp32_eq.
  destruct (shl_align_down p (-8) (Z.max (d + -8 - 24) (-149))) as (mz & -> & Hmz); [lia|].
  replace (Z.max (d + -8 - 24) (-149)) with (d - 32) in * by lia.
  replace (-8 - (d - 32)) with (24 - d) in Hmz by lia.
  assert (Zpos (digits2_pos mz) = 24) as Hdm.
  { rewrite (digits2_pos_shift p mz (24 - d)); [fold d; lia|lia|done]. }
  exists mz. split; [|split; [done|]].
  - rewrite <- (Z.add_0_r (d - 32)) at 2.
    apply binary_round_aux_exact; [done|lia| |unfold emax32, prec32; lia].
    rewrite Hdm, fexp32_eq. lia.
  - unfold bounded, canonical_mantissa. rewrite Hdm, fexp32_eq.
    apply andb_true_iff. split; [apply Z.eqb_eq; lia|apply Z.leb_le; unfold emax32, prec32; lia].
Qed.

(** X5. Every unsigned short [n] is the encoding of the float [n / 256],
    by the encoder and by [depthFromVec] on the axis point at that depth:
    the values a decoder produces are encoded back without loss. *)
Theorem depthFromVec_grid_value (n : Z) :
  0 <= n <= 65535 ->
  (SF2Q (float_of_dyadic n (-8)) == n # 256)%Q /\
  pixel_val (float_of_dyadic n (-8)) = Some n /\
  depthFromVec (xyz_of (point_dyadic 0 0 n (-8))) = Some n.
Proof.
  intros Hn. destruct n as [|p|p]; [by vm_compute| |lia].
  destruct (float_of_ushort_256 p ltac:(lia)) as (mz & Hf & Hmz & Hb).
  pose proof (digits2_pos_bounds p) as [Hlo Hhi].
  set (d := Zpos (digits2_pos p)) in *.
  assert (1 <= d <= 16) as Hd.
  { split; [unfold d; lia|].
    destruct (Z.le_gt_cases d 16) as [|Hgt]; [done|].
    assert (2 ^ 16 <= 2 ^ (d - 1)) by (apply Z.pow_le_mono_r; lia).
    change (2 ^ 16) with 65536 in *. lia. }
  assert (pixel_val (float_of_dyadic (Zpos p) (-8)) = Some (Zpos p)) as Hpv.
  { rewrite Hf, pixel_val_finite by done. simpl cond_Zopp. cbv zeta.
    rewrite Hmz, <- Z.shiftl_mul_pow2, Z.shiftl_shiftl by lia.
    replace (24 - d + (d - 32 + 8)) with 0 by lia. rewrite Z.shiftl_0_r.
    by rewrite (proj2 (Z.leb_le 0 (Zpos p))), (proj2 (Z.ltb_lt (Zpos p) 65536)) by lia. }
  split; [|split; [done|]].
  - rewrite Hf.
    unfold SF2Q. destruct (d - 32) as [|q|q] eqn:Hq; [lia|lia|]. simpl cond_Zopp.
    unfold Qeq; simpl Qnum; simpl Qden.
    rewrite Pos2Z.inj_pow, Hmz.
    replace (Zpos q) with (32 - d) by lia.
    replace (2 ^ (32 - d)) with (2 ^ (24 - d) * 2 ^ 8)
      by (rewrite <- Z.pow_add_r by lia; f_equal; lia).
    change (2 ^ 8) with 256. lia.
  - unfold depthFromVec, point_dyadic.
    change (float_of_dyadic 0 (-8)) with (S754_zero false).
    rewrite mag_on_axis; [|by rewrite Hf|by rewrite Hf].
    rewrite Hf in *. exact Hpv.
Qed.

(** X5, an instance: [n = 512], that is 2 m. *)
Lemma depthFromVec_grid_value_witness :
  0 <= 512 <= 65535 /\
  (SF2Q (float_of_dyadic 512 (-8)) == 512 # 256)%Q /\
  pixel_val (float_of_dyadic 512 (-8)) = Some 512 /\
  depthFromVec (xyz_of (point_dyadic 0 0 512 (-8))) = Some 512.
Proof. split; [lia|]. apply (depthFromVec_grid_value 512). lia. Defined.

(** X6. The encoder is monotone: of two finite magnitudes below 256, the
    larger never gets the smaller pixel value. *)
Theorem pixel_val_monotone (a b : float) :
  valid_binary prec32 emax32 a = true -> isfinite a = true ->
  valid_binary prec32 emax32 b = true -> isfinite b = true ->
  (0 <= SF2Q a)%Q -> (SF2Q a <= SF2Q b)%Q -> (SF2Q b < 256)%Q ->
  exists va vb, pixel_val a = Some va /\ pixel_val b = Some vb /\ va <= vb.
Proof.
  intros Hba Hfa Hbb Hfb Hnn Hle Hlt.
  exists (Qfloor (256 * SF2Q a)), (Qfloor (256 * SF2Q b)).
  rewrite !pixel_val_below_256 by (done || lra).
  split; [done|]. split; [done|]. apply Qfloor_resp_le. lra.
Qed.

(** X6, an instance: 1.5 and 3. *)
Lemma pixel_val_monotone_witness :
  valid_binary prec32 emax32 (float_of_dyadic 3 (-1)) = true /\
  isfinite (float_of_dyadic 3 (-1)) = true /\
  valid_binary prec32 emax32 (float_of_Z 3) = true /\ isfinite (float_of_Z 3) = true /\
  (0 <= SF2Q (float_of_dyadic 3 (-1)))%Q /\
  (SF2Q (float_of_dyadic 3 (-1)) <= SF2Q (float_of_Z 3))%Q /\
  (SF2Q (float_of_Z 3) < 256)%Q /\
  exists va vb, pixel_val (float_of_dyadic 3 (-1)) = Some va /\
                pixel_val (float_of_Z 3) = Some vb /\ va <= vb.
Proof.
  do 4 (split; [reflexivity|]). do 3 (split; [by vm_compute|]).
  apply (pixel_val_monotone (float_of_dyadic 3 (-1)) (float_of_Z 3)); by vm_compute.
Defined.


(** ** Rounding in general: the result is a neighbour on the grid *)

Lemma shr_1_m r : 0 <= shr_m r -> shr_m (shr_1 r) = shr_m r / 2 /\ 0 <= shr_m (shr_1 r).
Proof.
  destruct r as [[|[p|p|]|p] r s]; simpl shr_m; intros H; try lia; simpl shr_1; simpl shr_m.
  - done.
  - split; [|lia]. apply Z.div_unique with (r := 1); lia.
  - split; [|lia]. apply Z.div_unique with (r := 0); lia.
  - done.
Qed.

Lemma iter_shr_1_m p : forall r, 0 <= shr_m r ->
  shr_m (SpecFloat.iter_pos shr_1 p r) = shr_m r / 2 ^ Zpos p /\
  0 <= shr_m (SpecFloat.iter_pos shr_1 p r).
Proof.
  induction p as [p IH|p IH|]; intros r Hr; simpl SpecFloat.iter_pos.
  - destruct (shr_1_m r Hr) as [H1 H1'].
    destruct (IH _ H1') as [H2 H2']. destruct (IH _ H2') as [H3 H3'].
    split; [|done]. rewrite H3, H2, H1.
    rewrite !Z.div_div by lia. f_equal.
    replace (Zpos p~1) with (1 + Zpos p + Zpos p) by lia.
    rewrite !Z.pow_add_r by lia. lia.
  - destruct (IH _ Hr) as [H2 H2']. destruct (IH _ H2') as [H3 H3'].
    split; [|done]. rewrite H3, H2.
    rewrite !Z.div_div by lia. f_equal.
    replace (Zpos p~0) with (Zpos p + Zpos p) by lia.
    rewrite !Z.pow_add_r by lia. lia.
  - destruct (shr_1_m r Hr) as [H1 H1']. by rewrite Z.pow_1_r.
Qed.

Lemma round_nearest_even_step q l :
  round_nearest_even q l = q \/ round_nearest_even q l = q + 1.
Proof. destruct l as [|[]]; simpl; auto. destruct (Z.even q); auto. Qed.

(** The result of the second normalisation of [binary_round_aux]. *)
Lemma binary_round_aux_stages prec emax s m e l n :
  n = fexp prec emax (Zpos (digits2_pos m) + e) - e -> 0 <= n ->
  exists Q', (Q' = Zpos m / 2 ^ n \/ Q' = Zpos m / 2 ^ n + 1) /\
    binary_round_aux prec emax s (Zpos m) e l =
      (let '(mrs'', e'') := shr_fexp prec emax Q' (e + n) loc_Exact in
       match shr_m mrs'' with
       | Z0 => S754_zero s
       | Zpos q' => if e'' <=? emax - prec then S754_finite s q' e'' else S754_infinity s
       | _ => S754_nan
       end).
Proof.
  intros Hn Hn0. unfold binary_round_aux.
  unfold shr_fexp at 1. simpl Zdigits2. rewrite <- Hn.
  assert (exists mrs', shr (shr_record_of_loc (Zpos m) l) e n = (mrs', e + n) /\
                       shr_m mrs' = Zpos m / 2 ^ n) as (mrs' & -> & Hm).
  { destruct n as [|p|p]; [| |lia]; simpl.
    - eexists; split; [by rewrite Z.add_0_r|]. rewrite Z.div_1_r. by destruct l as [|[]].
    - eexists; split; [done|].
      assert (shr_m (shr_record_of_loc (Zpos m) l) = Zpos m) as Hl by (by destruct l as [|[]]).
      destruct (iter_shr_1_m p (shr_record_of_loc (Zpos m) l)) as [H _]; [rewrite Hl; lia|].
      by rewrite H, Hl. }
  exists (round_nearest_even (shr_m mrs') (loc_of_shr_record mrs')). split; [|done].
  rewrite <- Hm. apply round_nearest_even_step.
Qed.

Lemma stage2_normal prec emax s Q E :
  0 < prec -> 2 ^ (prec - 1) <= Q <= 2 ^ prec -> 3 - emax - prec <= E ->
  exists q' e'', Zpos (digits2_pos q') = prec /\ E <= e'' <= E + 1 /\
    Zpos q' * 2 ^ (e'' - E) = Q /\
    (let '(mrs'', e2) := shr_fexp prec emax Q E loc_Exact in
     match shr_m mrs'' with
     | Z0 => S754_zero s
     | Zpos q' => if e2 <=? emax - prec then S754_finite s q' e2 else S754_infinity s
     | _ => S754_nan
     end) = if e'' <=? emax - prec then S754_finite s q' e'' else S754_infinity s.
Proof.
  intros Hp [Hlo Hhi] HE.
  assert (0 < 2 ^ (prec - 1)) as Hpos by (apply Z.pow_pos_nonneg; lia).
  destruct Q as [|qq|qq]; [lia| |lia].
  assert (2 ^ prec = 2 * 2 ^ (prec - 1)) as Hpow.
  { replace prec with (1 + (prec - 1)) at 1 by lia. rewrite Z.pow_add_r by lia. lia. }
  destruct (Z.eq_dec (Zpos qq) (2 ^ prec)) as [Heq|Hne].
  - assert (Zpos (digits2_pos qq) = prec + 1) as Hd.
    { apply digits2_pos_unique. replace (prec + 1 - 1) with prec by lia.
      rewrite Z.pow_add_r by lia. lia. }
    unfold shr_fexp. simpl Zdigits2. rewrite Hd. unfold fexp, emin.
    replace (Z.max (prec + 1 + E - prec) (3 - emax - prec) - E) with 1 by lia.
    simpl shr.
    destruct (iter_shr_1_m 1 (shr_record_of_loc (Zpos qq) loc_Exact)) as [Hm _]; [simpl; lia|].
    simpl SpecFloat.iter_pos in Hm. simpl shr_record_of_loc in *.
    rewrite Hm. simpl shr_m. rewrite Heq, Hpow, Z.pow_1_r.
    rewrite Z.mul_comm, Z.div_mul by lia.
    destruct (2 ^ (prec - 1)) as [|q'|q'] eqn:Hq'; [lia| |lia].
    exists q', (E + 1). split; [|split; [lia|split; [|done]]].
    + apply digits2_pos_unique. rewrite Hq'. split; [lia|].
      rewrite <- Hq'. lia.
    + replace (E + 1 - E) with 1 by lia. rewrite Z.pow_1_r. lia.
  - assert (Zpos (digits2_pos qq) = prec) as Hd by (apply digits2_pos_unique; lia).
    unfold shr_fexp. simpl Zdigits2. rewrite Hd. unfold fexp, emin.
    replace (Z.max (prec + E - prec) (3 - emax - prec) - E) with 0 by lia.
    simpl. exists qq, E. split; [done|split; [lia|split; [|done]]].
    rewrite Z.sub_diag. simpl. lia.
Qed.

Lemma stage2_subnormal prec emax s Q :
  0 < prec -> 0 <= Q <= 2 ^ (prec - 1) -> 3 - emax - prec <= emax - prec ->
  (let '(mrs'', e2) := shr_fexp prec emax Q (3 - emax - prec) loc_Exact in
     match shr_m mrs'' with
     | Z0 => S754_zero s
     | Zpos q' => if e2 <=? emax - prec then S754_finite s q' e2 else S754_infinity s
     | _ => S754_nan
     end) = match Q with
            | Zpos q' => S754_finite s q' (3 - emax - prec)
            | _ => S754_zero s
            end /\
  match Q with Zpos q' => bounded prec emax q' (3 - emax - prec) = true | _ => True end.
Proof.
  intros Hp [Hlo Hhi] He.
  destruct Q as [|qq|qq]; [| |lia].
  - unfold shr_fexp. simpl Zdigits2. unfold fexp, emin.
    replace (Z.max (0 + (3 - emax - prec) - prec) (3 - emax - prec) - (3 - emax - prec))
      with 0 by lia.
    done.
  - assert (Zpos (digits2_pos qq) <= prec) as Hd.
    { pose proof (digits2_pos_bounds qq) as [Hb _].
      destruct (Z.le_gt_cases (Zpos (digits2_pos qq)) prec) as [|Hgt]; [done|].
      assert (2 ^ prec <= 2 ^ (Zpos (digits2_pos qq) - 1)) by (apply Z.pow_le_mono_r; lia).
      assert (2 ^ (prec - 1) < 2 ^ prec) by (apply Z.pow_lt_mono_r; lia). lia. }
    unfold shr_fexp. simpl Zdigits2. unfold fexp, emin.
    replace (Z.max (Zpos (digits2_pos qq) + (3 - emax - prec) - prec) (3 - emax - prec)
             - (3 - emax - prec)) with 0 by lia.
    simpl. split.
    + destruct (3 - emax - prec <=? emax - prec) eqn:Hle; [done|]. apply Z.leb_gt in Hle. lia.
    + unfold bounded, canonical_mantissa, fexp, emin.
      apply andb_true_iff; split; [apply Z.eqb_eq|apply Z.leb_le]; lia.
Qed.

(** Rounding a mantissa of at least [prec] digits in the normal range: the
    result is one of the two neighbours of the value on the grid of the
    target format. *)
Lemma binary_round_aux_normal prec emax s m e l :
  0 < prec -> prec <= Zpos (digits2_pos m) ->
  3 - emax - prec <= Zpos (digits2_pos m) + e - prec ->
  exists q' e'' g,
    binary_round_aux prec emax s (Zpos m) e l =
      (if e'' <=? emax - prec then S754_finite s q' e'' else S754_infinity s) /\
    Zpos (digits2_pos q') = prec /\
    e + (Zpos (digits2_pos m) - prec) <= e'' <= e + (Zpos (digits2_pos m) - prec) + 1 /\
    g <= Zpos m < g + 2 ^ (Zpos (digits2_pos m) - prec) /\
    g <= Zpos q' * 2 ^ (e'' - e) <= g + 2 ^ (Zpos (digits2_pos m) - prec) /\
    2 ^ (Zpos (digits2_pos m) - 1) <= g.
Proof.
  intros Hp Hd Hmin. set (d := Zpos (digits2_pos m)) in *.
  set (n := d - prec).
  assert (n = fexp prec emax (d + e) - e) as Hn by (unfold fexp, emin; lia).
  destruct (binary_round_aux_stages prec emax s m e l n Hn ltac:(lia)) as (Q' & HQ & ->).
  pose proof (digits2_pos_bounds m) as [Hlo Hhi]. fold d in Hlo, Hhi.
  assert (0 < 2 ^ n) as Hpn by (apply Z.pow_pos_nonneg; lia).
  assert (2 ^ (d - 1) = 2 ^ (prec - 1) * 2 ^ n) as Hsplit1.
  { rewrite <- Z.pow_add_r by lia. f_equal. lia. }
  assert (2 ^ d = 2 ^ prec * 2 ^ n) as Hsplit2.
  { rewrite <- Z.pow_add_r by lia. f_equal. lia. }
  set (q := Zpos m / 2 ^ n) in *.
  assert (q * 2 ^ n <= Zpos m < q * 2 ^ n + 2 ^ n) as Hq.
  { pose proof (Z.div_mod (Zpos m) (2 ^ n) ltac:(lia)) as Hdm.
    pose proof (Z.mod_pos_bound (Zpos m) (2 ^ n) Hpn). fold q in Hdm. lia. }
  assert (2 ^ (prec - 1) <= q < 2 ^ prec) as Hqr.
  { split.
    - apply Z.div_le_lower_bound; lia.
    - apply Z.div_lt_upper_bound; lia. }
  destruct (stage2_normal prec emax s Q' (e + n) Hp ltac:(lia) ltac:(lia))
    as (q' & e'' & Hdq & He'' & HV & ->).
  exists q', e'', (q * 2 ^ n). split; [done|]. split; [done|]. split; [lia|].
  split; [lia|]. split; [|nia].
  replace (e'' - e) with (e'' - (e + n) + n) by lia.
  rewrite Z.pow_add_r by lia. rewrite Z.mul_assoc, HV.
  destruct HQ as [-> | ->]; nia.
Qed.

(** ** Rounding as a relative error *)

Lemma Qpow2_pos e : (0 < 2 ^ e)%Q.
Proof. by apply Qpower_0_lt. Qed.

Lemma Qpow2_add a b : (2 ^ (a + b) == 2 ^ a * 2 ^ b)%Q.
Proof. by apply Qpower_plus. Qed.

Lemma Qpow2_inject k : 0 <= k -> (inject_Z (2 ^ k) == 2 ^ k)%Q.
Proof. intros Hk. by rewrite Zpower_Qpower. Qed.

(** The value of a finite datum: mantissa times a power of two. *)
Lemma SF2Q_finite s m e :
  (SF2Q (S754_finite s m e) == inject_Z (cond_Zopp s (Zpos m)) * 2 ^ e)%Q.
Proof.
  unfold SF2Q. destruct e as [|p|p].
  - change (2 ^ 0)%Q with 1%Q. by rewrite Qmult_1_r.
  - by rewrite inject_Z_mult, Qpow2_inject.
  - rewrite Qmake_Qdiv. unfold Qdiv.
    change (Z.neg p) with (- Zpos p). rewrite Qpower_opp.
    rewrite Pos2Z.inj_pow, Qpow2_inject; done.
Qed.

Lemma scaled_bounds (A B t lo hi : Q) :
  (0 <= t -> A * lo <= B -> B <= A * hi -> A * t * lo <= B * t /\ B * t <= A * t * hi)%Q.
Proof. intros. split; nra. Qed.

Lemma grid_rel (K : Z) (u : Q) (m q' : positive) (e e'' g G : Z) :
  0 < K -> (inject_Z K * u == 1)%Q -> e <= e'' ->
  g <= Zpos m < g + G -> g <= Zpos q' * 2 ^ (e'' - e) <= g + G -> G * K <= g ->
  (inject_Z (Zpos m) * 2 ^ e * (1 - u) <= inject_Z (Zpos q') * 2 ^ e'' /\
   inject_Z (Zpos q') * 2 ^ e'' <= inject_Z (Zpos m) * 2 ^ e * (1 + u))%Q.
Proof.
  intros HK Hu He Hm HV HG.
  set (V := Zpos q' * 2 ^ (e'' - e)) in *.
  assert (inject_Z (Zpos q') * 2 ^ e'' == inject_Z V * 2 ^ e)%Q as ->.
  { unfold V. rewrite inject_Z_mult, Qpow2_inject by lia.
    rewrite <- Qmult_assoc, <- Qpow2_add. by replace (e'' - e + e) with e'' by lia. }
  assert (V * K <= Zpos m + Zpos m * K) as H1 by nia.
  assert (Zpos m * K <= Zpos m + V * K) as H2 by nia.
  rewrite Zle_Qle in H1, H2.
  rewrite inject_Z_plus, !inject_Z_mult in H1, H2.
  assert (0 < inject_Z K)%Q as HKq by (change 0%Q with (inject_Z 0); by rewrite <- Zlt_Qlt).
  assert (0 < u)%Q as Hupos by nra.
  pose proof (Qpow2_pos e) as Hpe.
  set (A := inject_Z (Zpos m)) in *. set (B := inject_Z V) in *. set (k := inject_Z K) in *.
  apply scaled_bounds; [lra| |].
  - assert ((A - B) * k * u <= A * u)%Q by nra.
    assert ((A - B) * k * u == A - B)%Q by (rewrite <- Qmult_assoc, Hu; ring). lra.
  - assert ((B - A) * k * u <= A * u)%Q by nra.
    assert ((B - A) * k * u == B - A)%Q by (rewrite <- Qmult_assoc, Hu; ring). lra.
Qed.

Lemma digits2_pos_range p a b :
  2 ^ a <= Zpos p < 2 ^ b -> 0 <= a -> a + 1 <= Zpos (digits2_pos p) <= b.
Proof.
  intros [Hlo Hhi] Ha. pose proof (digits2_pos_bounds p) as [Hl Hh].
  split.
  - destruct (Z.le_gt_cases (a + 1) (Zpos (digits2_pos p))) as [|Hlt]; [done|].
    assert (2 ^ Zpos (digits2_pos p) <= 2 ^ a) by (apply Z.pow_le_mono_r; lia). lia.
  - destruct (Z.le_gt_cases (Zpos (digits2_pos p)) b) as [|Hgt]; [done|].
    assert (2 ^ b <= 2 ^ (Zpos (digits2_pos p) - 1)) by (apply Z.pow_le_mono_r; lia). lia.
Qed.

(** Rounding to double in the normal range, as a relative error. *)
Lemma binary_round_aux_double s m e l :
  53 <= Zpos (digits2_pos m) -> -1074 <= Zpos (digits2_pos m) + e - 53 ->
  Zpos (digits2_pos m) + e - 53 + 1 <= 971 ->
  exists q' e'',
    binary_round_aux prec64 emax64 s (Zpos m) e l = S754_finite s q' e'' /\
    Zpos (digits2_pos q') = 53 /\
    e + (Zpos (digits2_pos m) - 53) <= e'' <= e + (Zpos (digits2_pos m) - 53) + 1 /\
    (inject_Z (Zpos m) * 2 ^ e * (1 - u64) <= inject_Z (Zpos q') * 2 ^ e'' /\
     inject_Z (Zpos q') * 2 ^ e'' <= inject_Z (Zpos m) * 2 ^ e * (1 + u64))%Q.
Proof.
  intros Hd Hlo Hhi.
  destruct (binary_round_aux_normal prec64 emax64 s m e l) as
    (q' & e'' & g & Hr & Hdq & He'' & Hm & HV & Hg); [done|done|unfold prec64, emax64; lia|].
  unfold prec64, emax64 in *.
  exists q', e''. split.
  { rewrite Hr. destruct (e'' <=? 1024 - 53) eqn:Hle; [done|]. apply Z.leb_gt in Hle. lia. }
  split; [done|]. split; [done|].
  apply (grid_rel (2 ^ 52) u64 m q' e e'' g (2 ^ (Zpos (digits2_pos m) - 53)));
    [done|done|lia|done|done|].
  rewrite <- Z.pow_add_r by lia.
  by replace (Zpos (digits2_pos m) - 53 + 52) with (Zpos (digits2_pos m) - 1) by lia.
Qed.

(** ** The operations of depthFromVec, one by one *)

Lemma SF2Q_nonneg64 lo hi r : nonneg64 lo hi r -> (0 <= SF2Q r)%Q.
Proof.
  intros [-> | (m & e & -> & _)]; [done|].
  pose proof (SF2Q_pos m e). lra.
Qed.

(** The square of a double of moderate size. *)
Lemma dmul_square_bounds c :
  moderate c = true ->
  nonneg64 (-948) 854 (dmul c c) /\
  (SF2Q c * SF2Q c * (1 - u64) <= SF2Q (dmul c c) /\
   SF2Q (dmul c c) <= SF2Q c * SF2Q c * (1 + u64))%Q.
Proof.
  destruct c as [s|s| |s M E]; try done; intros Hc.
  - simpl. rewrite xorb_nilpotent. split; [by left|]. simpl. lra.
  - unfold moderate in Hc. apply andb_true_iff in Hc as [Hc Hhi]. apply andb_true_iff in Hc as [Hd Hlo].
    apply Z.eqb_eq in Hd. apply Z.leb_le in Hlo, Hhi.
    pose proof (Zpos_digits_53_bounds M Hd) as [HMl HMh].
    assert (105 <= Zpos (digits2_pos (M * M)) <= 106) as Hdd.
    { apply (digits2_pos_range (M * M) 104 106); [|lia]. rewrite Pos2Z.inj_mul.
      change (2 ^ 104) with (2 ^ 52 * 2 ^ 52). change (2 ^ 106) with (2 ^ 53 * 2 ^ 53).
      split; [apply Z.mul_le_mono_nonneg; lia|apply Z.mul_lt_mono_nonneg; lia]. }
    change (dmul (S754_finite s M E) (S754_finite s M E))
      with (binary_round_aux prec64 emax64 (xorb s s) (Zpos (M * M)) (E + E) loc_Exact).
    rewrite xorb_nilpotent.
    destruct (binary_round_aux_double false (M * M) (E + E) loc_Exact)
      as (q' & e'' & -> & Hdq & He'' & Hb); [lia|lia|lia|].
    split.
    { right. exists q', e''. split; [done|]. split; [done|]. lia. }
    assert (inject_Z (Zpos (M * M)) * 2 ^ (E + E) ==
            SF2Q (S754_finite s M E) * SF2Q (S754_finite s M E))%Q as HX.
    { rewrite SF2Q_finite, Qpow2_add, Pos2Z.inj_mul, inject_Z_mult.
      generalize (2 ^ E)%Q; intros t.
      destruct s; simpl cond_Zopp; [rewrite inject_Z_opp|].
      - ring.
      - ring. }
    rewrite HX in Hb. by rewrite (SF2Q_finite false q' e'').
Qed.

(** The sum of two non-negative doubles in the normal range. *)
Lemma dadd_bounds lo hi a b :
  nonneg64 lo hi a -> nonneg64 lo hi b -> -1074 <= lo -> hi + 2 <= 971 ->
  nonneg64 lo (hi + 2) (dadd a b) /\
  ((SF2Q a + SF2Q b) * (1 - u64) <= SF2Q (dadd a b) /\
   SF2Q (dadd a b) <= (SF2Q a + SF2Q b) * (1 + u64))%Q.
Proof.
  intros Ha Hb Hlo Hhi.
  assert (forall r, nonneg64 lo hi r -> nonneg64 lo (hi + 2) r) as Hweak.
  { intros r [-> | (m & e & -> & Hd & He)]; [by left|].
    right. exists m, e. split; [done|]. split; [done|]. lia. }
  assert (0 < u64 < 1)%Q as Hu by (by split).
  destruct Ha as [-> | (ma & ea & -> & Hda & Hea)].
  { pose proof (SF2Q_nonneg64 _ _ _ Hb) as Hb0.
    destruct Hb as [-> | (mb & eb & -> & Hdb & Heb)].
    - split; [by left|]. simpl. lra.
    - change (dadd (S754_zero false) (S754_finite false mb eb)) with (S754_finite false mb eb).
      split; [apply Hweak; right; by exists mb, eb|].
      change (SF2Q (S754_zero false)) with 0%Q. nra. }
  destruct Hb as [-> | (mb & eb & -> & Hdb & Heb)].
  { change (dadd (S754_finite false ma ea) (S754_zero false)) with (S754_finite false ma ea).
    pose proof (SF2Q_pos ma ea).
    split; [apply Hweak; right; by exists ma, ea|].
    change (SF2Q (S754_zero false)) with 0%Q. nra. }
  set (ez := Z.min ea eb).
  destruct (shl_align_down ma ea ez ltac:(lia)) as (ma' & Hsa & Hma').
  destruct (shl_align_down mb eb ez ltac:(lia)) as (mb' & Hsb & Hmb').
  pose proof (Zpos_digits_53_bounds ma Hda) as [Hal Hah].
  pose proof (Zpos_digits_53_bounds mb Hdb) as [Hbl Hbh].
  set (ex := Z.max ea eb).
  assert (0 < 2 ^ (ea - ez)) as Hpa by (apply Z.pow_pos_nonneg; lia).
  assert (0 < 2 ^ (eb - ez)) as Hpb by (apply Z.pow_pos_nonneg; lia).
  assert (2 ^ (ea - ez) <= 2 ^ (ex - ez)) as Hpa' by (apply Z.pow_le_mono_r; lia).
  assert (2 ^ (eb - ez) <= 2 ^ (ex - ez)) as Hpb' by (apply Z.pow_le_mono_r; lia).
  assert (2 ^ (ea - ez) = 2 ^ (ex - ez) \/ 2 ^ (eb - ez) = 2 ^ (ex - ez)) as Hmax.
  { destruct (Z.le_ge_cases ea eb); [right|left]; f_equal; lia. }
  assert (2 ^ (52 + (ex - ez)) <= Zpos (ma' + mb') < 2 ^ (54 + (ex - ez))) as Hsum.
  { rewrite !Z.pow_add_r by lia. rewrite Pos2Z.inj_add, Hma', Hmb'.
    change (2 ^ 54) with (2 * 2 ^ 53). split; destruct Hmax; nia. }
  pose proof (digits2_pos_range _ _ _ Hsum ltac:(lia)) as Hd.
  assert (dadd (S754_finite false ma ea) (S754_finite false mb eb) =
          binary_round_aux prec64 emax64 false (Zpos (ma' + mb')) ez loc_Exact) as ->.
  { unfold dadd, SFadd. fold ez. rewrite Hsa, Hsb. simpl.
    unfold binary_round. rewrite shl_align_up; [done|].
    rewrite fexp64_eq. lia. }
  destruct (binary_round_aux_double false (ma' + mb') ez loc_Exact)
    as (q' & e'' & -> & Hdq & He'' & Hb); [lia|lia|lia|].
  split.
  { right. exists q', e''. split; [done|]. split; [done|]. lia. }
  assert (inject_Z (Zpos (ma' + mb')) * 2 ^ ez ==
          SF2Q (S754_finite false ma ea) + SF2Q (S754_finite false mb eb))%Q as HX.
  { rewrite !SF2Q_finite. simpl cond_Zopp.
    rewrite Pos2Z.inj_add, inject_Z_plus, Hma', Hmb', !inject_Z_mult.
    rewrite !Qpow2_inject by lia.
    rewrite Qmult_plus_distr_l, <- !Qmult_assoc, <- !Qpow2_add.
    by replace (ea - ez + ez) with ea by lia; replace (eb - ez + ez) with eb by lia. }
  rewrite HX in Hb. by rewrite (SF2Q_finite false q' e'').
Qed.

(** The integer square root that [SFsqrt] rounds. *)
Lemma SFsqrt_core_binary_double m e :
  Zpos (digits2_pos m) = 53 -> -1000 <= e <= 900 ->
  exists q l e',
    SFsqrt_core_binary prec64 emax64 (Zpos m) e = (Zpos q, e', l) /\
    e' = Z.div2 e - 26 /\ 52 <= e - 2 * e' <= 53 /\
    Zpos (digits2_pos q) = 53 /\
    Zpos q * Zpos q <= Zpos m * 2 ^ (e - 2 * e') < (Zpos q + 1) * (Zpos q + 1).
Proof.
  intros Hd He. unfold SFsqrt_core_binary. simpl Zdigits2. rewrite Hd.
  assert (Z.div2 (53 + e + 1) = Z.div2 e + 27) as ->.
  { rewrite !Z.div2_div. replace (53 + e + 1) with (e + 27 * 2) by lia.
    by rewrite Z.div_add. }
  pose proof (Z.div_mod e 2 ltac:(lia)) as Hdm.
  pose proof (Z.mod_pos_bound e 2 ltac:(lia)) as Hmod.
  rewrite <- Z.div2_div in Hdm.
  rewrite fexp64_eq.
  replace (Z.min (Z.max (Z.div2 e + 27 - 53) (-1074)) (Z.div2 e)) with (Z.div2 e - 26) by lia.
  set (e' := Z.div2 e - 26). set (s := e - 2 * e').
  assert (52 <= s <= 53) as Hs by (unfold s, e'; lia).
  pose proof (Zpos_digits_53_bounds m Hd) as [Hml Hmh].
  assert (2 ^ 104 <= Zpos m * 2 ^ s < 2 ^ 106) as Hm'.
  { assert (s = 52 \/ s = 53) as [-> | ->] by lia.
    - change (2 ^ 104) with (2 ^ 52 * 2 ^ 52). change (2 ^ 106) with (2 ^ 54 * 2 ^ 52). nia.
    - change (2 ^ 104) with (2 ^ 51 * 2 ^ 53). change (2 ^ 106) with (2 ^ 53 * 2 ^ 53). nia. }
  assert (match s with Z.pos _ => Z.shiftl (Zpos m) s | 0 => Zpos m | Z.neg _ => 0 end
          = Zpos m * 2 ^ s) as ->.
  { destruct s; [lia| |lia]. by rewrite Z.shiftl_mul_pow2. }
  pose proof (Z.sqrtrem_spec (Zpos m * 2 ^ s) ltac:(lia)) as Hsq.
  destruct (Z.sqrtrem (Zpos m * 2 ^ s)) as [q r]. destruct Hsq as [Hq Hr].
  assert (2 ^ 52 <= q < 2 ^ 53) as Hqr.
  { change (2 ^ 104) with (2 ^ 52 * 2 ^ 52) in Hm'.
    change (2 ^ 106) with (2 ^ 53 * 2 ^ 53) in Hm'. split; nia. }
  destruct q as [|q|q]; [lia| |lia].
  eexists q, _, e'. split; [done|]. split; [done|]. split; [done|]. split.
  - by apply digits2_pos_unique.
  - subst s. nia.
Qed.

(** The square root of a non-negative double. *)
Lemma dsqrt_bounds lo hi a :
  nonneg64 lo hi a -> -1000 <= lo -> hi <= 900 ->
  nonneg64 (-600) 500 (dsqrt a) /\
  (SF2Q (dsqrt a) * SF2Q (dsqrt a) <= SF2Q a * ((1 + u64) * (1 + u64)) /\
   SF2Q a <= SF2Q (dsqrt a) * SF2Q (dsqrt a) * ((1 + u64) * (1 + u64)))%Q.
Proof.
  intros [-> | (m & e & -> & Hd & He)] Hlo Hhi.
  { split; [by left|]. simpl. lra. }
  destruct (SFsqrt_core_binary_double m e Hd ltac:(lia))
    as (q & l & e' & Hcore & He' & Hs & Hdq & Hq).
  assert (dsqrt (S754_finite false m e) =
          binary_round_aux prec64 emax64 false (Zpos q) e' l) as ->.
  { unfold dsqrt, SFsqrt. by rewrite Hcore. }
  pose proof (Z.div_mod e 2 ltac:(lia)) as Hdm.
  pose proof (Z.mod_pos_bound e 2 ltac:(lia)) as Hmod.
  rewrite <- Z.div2_div in Hdm.
  destruct (binary_round_aux_normal prec64 emax64 false q e' l)
    as (q' & e'' & g & Hr & Hdq' & He'' & Hg & HV & Hg');
    [done|by rewrite Hdq|rewrite Hdq; unfold prec64, emax64; lia|].
  rewrite Hdq in *. unfold prec64, emax64 in *.
  replace (53 - 53) with 0 in * by lia. change (2 ^ 0) with 1 in *.
  rewrite Hr. replace (e'' <=? 1024 - 53) with true by (symmetry; apply Z.leb_le; lia).
  split.
  { right. exists q', e''. split; [done|]. split; [done|]. lia. }
  pose proof (Zpos_digits_53_bounds q Hdq) as [Hql Hqh].
  set (V := Zpos q' * 2 ^ (e'' - e')) in *.
  assert (SF2Q (S754_finite false q' e'') == inject_Z V * 2 ^ e')%Q as ->.
  { rewrite SF2Q_finite. simpl cond_Zopp. unfold V.
    rewrite inject_Z_mult, Qpow2_inject by lia.
    rewrite <- Qmult_assoc, <- Qpow2_add. by replace (e'' - e' + e') with e'' by lia. }
  set (m' := Zpos m * 2 ^ (e - 2 * e')) in *.
  assert (SF2Q (S754_finite false m e) == inject_Z m' * (2 ^ e' * 2 ^ e'))%Q as ->.
  { rewrite SF2Q_finite. simpl cond_Zopp. unfold m'.
    rewrite inject_Z_mult, Qpow2_inject by lia.
    rewrite <- Qmult_assoc, <- !Qpow2_add. by replace (e - 2 * e' + (e' + e')) with e by lia. }
  assert (Zpos q <= V <= Zpos q + 1) as HVq by lia.
  assert (inject_Z (Zpos q) <= inject_Z V <= inject_Z (Zpos q) + 1)%Q as [HV1 HV2].
  { change 1%Q with (inject_Z 1). rewrite <- inject_Z_plus, <- !Zle_Qle. lia. }
  assert (inject_Z (Zpos q) * inject_Z (Zpos q) <= inject_Z m')%Q as Hq1.
  { rewrite <- inject_Z_mult, <- Zle_Qle. lia. }
  assert (inject_Z m' <= (inject_Z (Zpos q) + 1) * (inject_Z (Zpos q) + 1))%Q as Hq2.
  { change 1%Q with (inject_Z 1). rewrite <- inject_Z_plus, <- inject_Z_mult, <- Zle_Qle. lia. }
  assert (inject_Z (2 ^ 52) <= inject_Z (Zpos q))%Q as Hq3 by (rewrite <- Zle_Qle; lia).
  assert (inject_Z (Zpos q) + 1 <= inject_Z (Zpos q) * (1 + u64))%Q as Hstep.
  { assert (inject_Z (2 ^ 52) * u64 == 1)%Q as Hu by done.
    assert (0 < u64)%Q by done. nra. }
  pose proof (Qpow2_pos e') as Hpe.
  generalize dependent (2 ^ e')%Q. intros t Ht.
  generalize dependent (inject_Z (Zpos q)). intros Q0 HV1 HV2 Hq1 Hq2 Hq3 Hstep.
  generalize dependent (inject_Z V). intros V0 HV1 HV2.
  generalize dependent (inject_Z m'). intros M0 Hq1 Hq2.
  assert (0 < Q0)%Q as HQ0.
  { assert (0 < inject_Z (2 ^ 52))%Q by done. lra. }
  assert (0 < u64)%Q as Hupos by done.
  set (c := ((1 + u64) * (1 + u64))%Q).
  assert (0 <= c)%Q as Hc by done.
  assert ((Q0 + 1) * (Q0 + 1) <= Q0 * Q0 * c)%Q as Hsq.
  { assert (Q0 * Q0 * c == (Q0 * (1 + u64)) * (Q0 * (1 + u64)))%Q as Heq
      by (unfold c; ring).
    rewrite Heq. nra. }
  assert (V0 * V0 <= M0 * c)%Q as H1.
  { assert (V0 * V0 <= (Q0 + 1) * (Q0 + 1))%Q by nra.
    assert (Q0 * Q0 * c <= M0 * c)%Q by (by apply Qmult_le_compat_r).
    lra. }
  assert (M0 <= V0 * V0 * c)%Q as H2.
  { assert (Q0 * Q0 <= V0 * V0)%Q by nra.
    assert (Q0 * Q0 * c <= V0 * V0 * c)%Q by (by apply Qmult_le_compat_r).
    lra. }
  assert (0 <= t * t)%Q as Htt by nra.
  split.
  - assert (V0 * t * (V0 * t) == V0 * V0 * (t * t))%Q as E1 by ring.
    assert (M0 * (t * t) * c == M0 * c * (t * t))%Q as E2 by ring.
    rewrite E1, E2. by apply Qmult_le_compat_r.
  - assert (V0 * t * (V0 * t) * c == V0 * V0 * c * (t * t))%Q as E1 by ring.
    rewrite E1. by apply Qmult_le_compat_r.
Qed.

Lemma Qpow2_le a b : a <= b -> (2 ^ a <= 2 ^ b)%Q.
Proof. intros H. by apply Qpower_le_compat_l. Qed.

(** The conversion of a non-negative double to float: it overflows, or it
    is within a relative error of [2^-23], or both values are below the
    least normal float. *)
Lemma to_float_bounds r :
  nonneg64 (-600) 500 r ->
  (to_float r = S754_infinity false /\ (inject_Z (2 ^ 127) <= SF2Q r)%Q) \/
  (valid_binary prec32 emax32 (to_float r) = true /\ isfinite (to_float r) = true /\
   (0 <= SF2Q (to_float r))%Q /\
   ((SF2Q r * (1 - u32) <= SF2Q (to_float r) /\ SF2Q (to_float r) <= SF2Q r * (1 + u32))%Q \/
    (SF2Q (to_float r) <= 2 ^ (-126) /\ SF2Q r <= 2 ^ (-126))%Q)).
Proof.
  intros [-> | (M & E & -> & Hd & HE)].
  { right. simpl. repeat split; try done. left. lra. }
  pose proof (Zpos_digits_53_bounds M Hd) as [HMl HMh].
  assert (to_float (S754_finite false M E) =
          binary_round_aux prec32 emax32 false (Zpos M) E loc_Exact) as ->.
  { unfold to_float, fl_round, binary_round. rewrite shl_align_up; [done|].
    rewrite fexp32_eq. lia. }
  destruct (Z.le_gt_cases (-149) (E + 29)) as [Hn | Hs].
  - destruct (binary_round_aux_normal prec32 emax32 false M E loc_Exact)
      as (q' & e'' & g & Hr & Hdq & He'' & Hg & HV & Hg');
      [done|rewrite Hd; done|rewrite Hd; unfold prec32, emax32; lia|].
    rewrite Hd in *. unfold prec32, emax32 in *.
    replace (53 - 24) with 29 in * by lia. replace (53 - 1) with 52 in * by lia.
    destruct (grid_rel (2 ^ 23) u32 M q' E e'' g (2 ^ 29)) as [Hb1 Hb2];
      [done|done|lia|done|done|by change (2 ^ 29 * 2 ^ 23) with (2 ^ 52)|].
    rewrite <- (SF2Q_finite false M E) in Hb1, Hb2.
    rewrite Hr. destruct (e'' <=? 128 - 24) eqn:Hle.
    + apply Z.leb_le in Hle. right.
      pose proof (SF2Q_pos q' e'').
      split; [|split; [done|split; [lra|]]].
      * unfold valid_binary, bounded, canonical_mantissa.
        rewrite Hdq, fexp32_eq. apply andb_true_iff.
        split; [apply Z.eqb_eq|apply Z.leb_le]; lia.
      * left. by rewrite (SF2Q_finite false q' e'').
    + apply Z.leb_gt in Hle. left. split; [done|].
      pose proof (digits2_pos_bounds q') as [Hql _]. rewrite Hdq in Hql.
      assert (inject_Z (2 ^ 128) <= inject_Z (Zpos q') * 2 ^ e'')%Q as Hbig.
      { change (2 ^ 128) with (2 ^ 23 * 2 ^ 105). rewrite inject_Z_mult.
        assert (inject_Z (2 ^ 23) <= inject_Z (Zpos q'))%Q by (rewrite <- Zle_Qle; lia).
        assert (inject_Z (2 ^ 105) <= 2 ^ e'')%Q.
        { rewrite Qpow2_inject by lia. apply Qpow2_le. lia. }
        assert (0 < inject_Z (2 ^ 23))%Q by done.
        assert (0 < inject_Z (2 ^ 105))%Q by done.
        nra. }
      assert (inject_Z (2 ^ 128) == 2 * inject_Z (2 ^ 127))%Q as H2 by done.
      assert (0 < u32 < 1)%Q as [Hu1 Hu2] by done.
      pose proof (SF2Q_pos M E). nra.
  - right.
    set (n := -149 - E).
    destruct (binary_round_aux_stages prec32 emax32 false M E loc_Exact n) as (Q' & HQ & ->).
    { rewrite Hd, fexp32_eq. lia. } { lia. }
    assert (0 < 2 ^ n) as Hpn by (apply Z.pow_pos_nonneg; lia).
    set (q := Zpos M / 2 ^ n) in *.
    assert (q * 2 ^ n <= Zpos M < q * 2 ^ n + 2 ^ n) as Hq.
    { pose proof (Z.div_mod (Zpos M) (2 ^ n) ltac:(lia)) as Hdm.
      pose proof (Z.mod_pos_bound (Zpos M) (2 ^ n) Hpn). fold q in Hdm. lia. }
    assert (0 <= q < 2 ^ 23) as Hqr.
    { split; [apply Z.div_pos; lia|].
      apply Z.div_lt_upper_bound; [lia|].
      assert (2 ^ 30 <= 2 ^ n) by (apply Z.pow_le_mono_r; lia).
      change (2 ^ 53) with (2 ^ 30 * 2 ^ 23) in HMh. nia. }
    replace (E + n) with (3 - emax32 - prec32) by (unfold emax32, prec32, n; lia).
    destruct (stage2_subnormal prec32 emax32 false Q') as [-> Hbd];
      [done|unfold prec32; change (2 ^ (24 - 1)) with (2 ^ 23); lia|done|].
    assert (SF2Q (S754_finite false M E) <= 2 ^ (-126))%Q as HR.
    { rewrite SF2Q_finite. simpl cond_Zopp.
      assert (inject_Z (Zpos M) <= inject_Z (2 ^ 23) * inject_Z (2 ^ n))%Q as HM'.
      { rewrite <- inject_Z_mult, <- Zle_Qle. nia. }
      rewrite (Qpow2_inject n) in HM' by lia.
      assert (2 ^ (-126) == inject_Z (2 ^ 23) * (2 ^ n * 2 ^ E))%Q as ->.
      { rewrite <- Qpow2_add. replace (n + E) with (-149) by (unfold n; lia). done. }
      rewrite Qmult_assoc. apply Qmult_le_compat_r; [exact HM'|]. apply Qlt_le_weak, Qpow2_pos. }
    change (3 - emax32 - prec32) with (-149) in *.
    destruct Q' as [|q'|q'].
    + repeat split; try done. by right.
    + simpl in Hbd. split; [done|]. split; [done|].
      pose proof (SF2Q_pos q' (-149)). split; [lra|]. right. split; [|done].
      rewrite SF2Q_finite. simpl cond_Zopp.
      assert (inject_Z (Zpos q') <= inject_Z (2 ^ 23))%Q by (rewrite <- Zle_Qle; lia).
      assert (2 ^ (-126) == inject_Z (2 ^ 23) * 2 ^ (-149))%Q as -> by done.
      apply Qmult_le_compat_r; [done|]. apply Qlt_le_weak, Qpow2_pos.
    + lia.
Qed.

(** ** depthFromVec against the exact magnitude *)

Lemma nonneg64_weaken lo hi hi' r : hi <= hi' -> nonneg64 lo hi r -> nonneg64 lo hi' r.
Proof.
  intros Hh [-> | (m & e & -> & Hd & He)]; [by left|].
  right. exists m, e. split; [done|]. split; [done|]. lia.
Qed.

Lemma Qsquare_nonneg a : (0 <= a * a)%Q.
Proof. destruct (Qlt_le_dec a 0); nra. Qed.

Lemma Qsquare_le a b : (0 <= a -> a <= b -> a * a <= b * b)%Q.
Proof. intros. nra. Qed.

Lemma Qsquare_lt a b : (0 <= a -> a < b -> a * a < b * b)%Q.
Proof. intros. nra. Qed.

Lemma sum_of_squares_nonneg xyz : (0 <= sum_of_squares xyz)%Q.
Proof.
  unfold sum_of_squares.
  pose proof (Qsquare_nonneg (SF2Q (p3x xyz))). pose proof (Qsquare_nonneg (SF2Q (p3y xyz))).
  pose proof (Qsquare_nonneg (SF2Q (p3z xyz))). lra.
Qed.

(** The double under the square root, and the root, against the exact sum
    of squares. *)
Lemma mag_double_bounds xyz :
  moderate (p3x xyz) = true -> moderate (p3y xyz) = true -> moderate (p3z xyz) = true ->
  let r := dsqrt (dadd (dadd (dmul (p3x xyz) (p3x xyz)) (dmul (p3y xyz) (p3y xyz)))
                       (dmul (p3z xyz) (p3z xyz))) in
  nonneg64 (-600) 500 r /\
  (SF2Q r * SF2Q r <= sum_of_squares xyz * (1 + 6 * u64) /\
   sum_of_squares xyz * (1 - 6 * u64) <= SF2Q r * SF2Q r)%Q.
Proof.
  intros Hx Hy Hz r.
  destruct (dmul_square_bounds _ Hx) as (Na & Ha1 & Ha2).
  destruct (dmul_square_bounds _ Hy) as (Nb & Hb1 & Hb2).
  destruct (dmul_square_bounds _ Hz) as (Nc & Hc1 & Hc2).
  destruct (dadd_bounds (-948) 854 _ _ Na Nb) as (N1 & H11 & H12); [lia|lia|].
  destruct (dadd_bounds (-948) 856 _ _ N1 (nonneg64_weaken (-948) 854 856 _ ltac:(lia) Nc))
    as (N2 & H21 & H22); [lia|lia|].
  destruct (dsqrt_bounds (-948) 858 _ N2) as (Nr & Hr1 & Hr2); [lia|lia|].
  fold r in Nr, Hr1, Hr2. split; [done|].
  unfold sum_of_squares.
  pose proof (Qsquare_nonneg (SF2Q (p3x xyz))) as Hxx.
  pose proof (Qsquare_nonneg (SF2Q (p3y xyz))) as Hyy.
  pose proof (Qsquare_nonneg (SF2Q (p3z xyz))) as Hzz.
  set (a2 := (SF2Q (p3x xyz) * SF2Q (p3x xyz))%Q) in *.
  set (b2 := (SF2Q (p3y xyz) * SF2Q (p3y xyz))%Q) in *.
  set (c2 := (SF2Q (p3z xyz) * SF2Q (p3z xyz))%Q) in *.
  set (rr := (SF2Q r * SF2Q r)%Q) in *.
  set (S2 := SF2Q (dadd (dadd _ _) _)) in *.
  set (S1 := SF2Q (dadd _ _)) in *.
  set (A := SF2Q (dmul (p3x xyz) (p3x xyz))) in *.
  set (B := SF2Q (dmul (p3y xyz) (p3y xyz))) in *.
  set (C := SF2Q (dmul (p3z xyz) (p3z xyz))) in *.
  clearbody a2 b2 c2 rr S2 S1 A B C.
  let v := eval vm_compute in u64 in change u64 with v in *.
  split; lra.
Qed.

(** The float [mag] against the exact sum of squares: the conversion
    overflows, or the square of [mag] is within a relative error of [2^-21],
    or [mag] and the magnitude are both below [2^-125]. *)
Lemma mag_bounds xyz :
  moderate (p3x xyz) = true -> moderate (p3y xyz) = true -> moderate (p3z xyz) = true ->
  (mag xyz = S754_infinity false /\ (inject_Z (2 ^ 253) <= sum_of_squares xyz)%Q) \/
  (valid_binary prec32 emax32 (mag xyz) = true /\ isfinite (mag xyz) = true /\
   (0 <= SF2Q (mag xyz))%Q /\
   ((SF2Q (mag xyz) * SF2Q (mag xyz)
       <= sum_of_squares xyz * ((1 + eps22) * (1 + eps22)) /\
     sum_of_squares xyz * ((1 - eps22) * (1 - eps22))
       <= SF2Q (mag xyz) * SF2Q (mag xyz))%Q \/
    (256 * SF2Q (mag xyz) < 1 /\ 65536 * sum_of_squares xyz < 1)%Q)).
Proof.
  intros Hx Hy Hz. destruct (mag_double_bounds xyz Hx Hy Hz) as (Nr & Hr1 & Hr2).
  unfold mag. set (r := dsqrt _) in *.
  pose proof (SF2Q_nonneg64 _ _ _ Nr) as Hr0.
  pose proof (sum_of_squares_nonneg xyz) as Hs0.
  destruct (to_float_bounds r Nr) as [[-> Hbig] | (Hv & Hf & H0 & Hb)].
  - left. split; [done|].
    assert (inject_Z (2 ^ 127) * inject_Z (2 ^ 127) <= SF2Q r * SF2Q r)%Q as Hsq.
    { apply Qsquare_le; [done|done]. }
    rewrite <- inject_Z_mult in Hsq. change (2 ^ 127 * 2 ^ 127) with (2 ^ 254) in Hsq.
    assert (inject_Z (2 ^ 254) == 2 * inject_Z (2 ^ 253))%Q as H2 by done.
    assert (0 < inject_Z (2 ^ 253))%Q as Hp by done.
    set (s := sum_of_squares xyz) in *. set (rr := (SF2Q r * SF2Q r)%Q) in *.
    set (c := inject_Z (2 ^ 253)) in *. set (c' := inject_Z (2 ^ 254)) in *.
    clearbody s rr c c'.
    let v := eval vm_compute in u64 in change u64 with v in *. lra.
  - right. split; [done|]. split; [done|]. split; [done|].
    set (F := SF2Q (to_float r)) in *. set (R := SF2Q r) in *.
    set (s := sum_of_squares xyz) in *.
    destruct Hb as [[Hb1 Hb2] | [Hb1 Hb2]].
    + left.
      assert (0 < u32 < 1)%Q as [Hu1 Hu2] by done.
      assert (F * F <= (R * (1 + u32)) * (R * (1 + u32)))%Q as HF1
        by (by apply Qsquare_le).
      assert ((R * (1 - u32)) * (R * (1 - u32)) <= F * F)%Q as HF2.
      { apply Qsquare_le; [|done]. nra. }
      assert ((R * (1 + u32)) * (R * (1 + u32)) == R * R * ((1 + u32) * (1 + u32)))%Q
        as E1 by ring.
      assert ((R * (1 - u32)) * (R * (1 - u32)) == R * R * ((1 - u32) * (1 - u32)))%Q
        as E2 by ring.
      rewrite E1 in HF1. rewrite E2 in HF2.
      set (rr := (R * R)%Q) in *. set (ff := (F * F)%Q) in *.
      clearbody s rr ff.
      let v := eval vm_compute in u64 in change u64 with v in *.
      let v := eval vm_compute in u32 in change u32 with v in *.
      let v := eval vm_compute in eps22 in change eps22 with v.
      split; lra.
    + right.
      assert (2 ^ (-126) == 1 # 2 ^ 126)%Q as E by done.
      rewrite E in Hb1, Hb2.
      assert (R * R <= (1 # 2 ^ 126) * (1 # 2 ^ 126))%Q as HRR by (by apply Qsquare_le).
      set (rr := (R * R)%Q) in *. clearbody s rr F R.
      let v := eval vm_compute in u64 in change u64 with v in *.
      let v := eval vm_compute in (1 # 2 ^ 126)%Q in change (1 # 2 ^ 126)%Q with v in *.
      split; lra.
Qed.

(** [floor] of a non-negative rational, squared. *)
Lemma Qfloor_square_bounds (q : Q) :
  (0 <= q)%Q ->
  0 <= Qfloor q /\
  (inject_Z (Qfloor q) * inject_Z (Qfloor q) <= q * q /\
   q * q < (inject_Z (Qfloor q) + 1) * (inject_Z (Qfloor q) + 1))%Q.
Proof.
  intros Hq. pose proof (Qfloor_le q) as Hl. pose proof (Qlt_floor q) as Hu.
  rewrite inject_Z_plus in Hu. change (inject_Z 1) with 1%Q in Hu.
  assert (0 <= Qfloor q) as H0.
  { change 0 with (Qfloor 0). by apply Qfloor_resp_le. }
  split; [done|].
  assert (0 <= inject_Z (Qfloor q))%Q as H0q.
  { change 0%Q with (inject_Z 0). by rewrite <- Zle_Qle. }
  split; [by apply Qsquare_le|by apply Qsquare_lt].
Qed.

(** The encoder on a float [F] whose square is close to [s]. *)
Lemma pixel_val_bounds (F : float) (s : Q) :
  (0 <= s)%Q ->
  valid_binary prec32 emax32 F = true -> isfinite F = true -> (0 <= SF2Q F)%Q ->
  ((SF2Q F * SF2Q F <= s * ((1 + eps22) * (1 + eps22)) /\
    s * ((1 - eps22) * (1 - eps22)) <= SF2Q F * SF2Q F)%Q \/
   (256 * SF2Q F < 1 /\ 65536 * s < 1)%Q) ->
  ((s <= 65025)%Q -> exists v, pixel_val F = Some v) /\
  (forall v, pixel_val F = Some v ->
     0 <= v < 65536 /\
     (inject_Z v * inject_Z v <= 65536 * s * ((1 + eps22) * (1 + eps22)))%Q /\
     (65536 * s * ((1 - eps22) * (1 - eps22)) < (inject_Z v + 1) * (inject_Z v + 1))%Q).
Proof.
  intros Hs0 Hv Hf H0 Hb.
  rewrite (pixel_val_floor _ Hv Hf H0).
  set (f := SF2Q F) in *.
  assert (0 <= 256 * f)%Q as H0' by lra.
  destruct (Qfloor_square_bounds (256 * f) H0') as (Hv0 & Hv1 & Hv2).
  pose proof (Qfloor_le (256 * f)) as Hfl.
  assert ((256 * f) * (256 * f) == 65536 * (f * f))%Q as E by ring.
  rewrite E in Hv1, Hv2.
  set (v0 := Qfloor (256 * f)) in *.
  split.
  - intros Hs. destruct (v0 <? 65536) eqn:Hlt'; [by eexists|].
    apply Z.ltb_ge in Hlt'. rewrite Zle_Qle in Hlt'.
    change (inject_Z 65536) with 65536%Q in Hlt'.
    destruct Hb as [[Hb1 Hb2] | [Hb1 Hb2]]; [|lra].
    assert (65536 * 65536 <= (256 * f) * (256 * f))%Q as Hsq
      by (apply Qsquare_le; lra).
    rewrite E in Hsq. set (ff := (f * f)%Q) in *. clearbody ff.
    let v := eval vm_compute in eps22 in change eps22 with v in *. lra.
  - intros v Hsome. destruct (v0 <? 65536) eqn:Hlt'; [|done].
    apply Z.ltb_lt in Hlt'. injection Hsome as <-. split; [lia|].
    destruct Hb as [[Hb1 Hb2] | [Hb1 Hb2]].
    + set (ff := (f * f)%Q) in *. set (vv := (inject_Z v0 * inject_Z v0)%Q) in *.
      set (ww := ((inject_Z v0 + 1) * (inject_Z v0 + 1))%Q) in *.
      clearbody ff vv ww.
      let v := eval vm_compute in eps22 in change eps22 with v in *.
      split; lra.
    + assert (v0 = 0) as ->.
      { assert (inject_Z v0 < inject_Z 1)%Q as H1 by (change (inject_Z 1) with 1%Q; lra).
        rewrite <- Zlt_Qlt in H1. lia. }
      change (inject_Z 0) with 0%Q.
      let v := eval vm_compute in eps22 in change eps22 with v in *.
      split; lra.
Qed.

(** ** Points with float coordinates *)

(** The promotion of a float to double keeps its value. *)
Lemma SF2Q_to_double v :
  valid_binary prec32 emax32 v = true -> (SF2Q (to_double v) == SF2Q v)%Q.
Proof.
  destruct v as [s|s| |s m e]; try done. simpl valid_binary. intros Hb.
  destruct (to_double_finite s m e Hb) as (M & -> & HM & HdM).
  destruct (bounded32_inv m e Hb) as [He _].
  rewrite !SF2Q_finite.
  assert (0 < Zpos (digits2_pos m)) by lia.
  set (k := 53 - Zpos (digits2_pos m)) in *.
  assert (cond_Zopp s (Zpos M) = cond_Zopp s (Zpos m) * 2 ^ k) as ->
    by (destruct s; simpl; lia).
  rewrite inject_Z_mult, Qpow2_inject by lia.
  rewrite <- Qmult_assoc, <- Qpow2_add.
  by replace (k + (e + Zpos (digits2_pos m) - 53)) with e by lia.
Qed.

(** Every finite float, promoted, is a double of moderate size. *)
Lemma to_double_moderate v :
  valid_binary prec32 emax32 v = true -> isfinite v = true -> moderate (to_double v) = true.
Proof.
  destruct v as [s|s| |s m e]; try done. simpl valid_binary. intros Hb _.
  destruct (to_double_finite s m e Hb) as (M & -> & HM & HdM).
  destruct (bounded32_inv m e Hb) as [He Hmax].
  assert (0 < Zpos (digits2_pos m)) by lia.
  unfold moderate. rewrite HdM.
  apply andb_true_iff; split; [apply andb_true_iff; split|];
    [done|apply Z.leb_le|apply Z.leb_le]; lia.
Qed.

(** C1. [depthFromVec] encodes the Euclidean magnitude of the vector, not its
    forward component.  With [s] the exact [x^2 + y^2 + z^2] of the point,
    the result is defined whenever [s <= 255^2], and a result [v] is
    [256 * sqrt s] up to the rounding of the float operations and the
    truncation: [v^2 <= 65536 * s * (1 + 2^-22)^2] and
    [65536 * s * (1 - 2^-22)^2 < (v + 1)^2].  This holds for every point
    whose coordinates are finite floats, and more generally for double
    coordinates that are zero or normal of magnitude from [2^-448] up to
    [2^453]. *)
Theorem depthFromVec_magnitude :
  (forall it : PointXYZ,
     valid_binary prec32 emax32 (x it) = true -> isfinite (x it) = true ->
     valid_binary prec32 emax32 (y it) = true -> isfinite (y it) = true ->
     valid_binary prec32 emax32 (z it) = true -> isfinite (z it) = true ->
     let s := (SF2Q (x it) * SF2Q (x it) + SF2Q (y it) * SF2Q (y it)
               + SF2Q (z it) * SF2Q (z it))%Q in
     ((s <= 65025)%Q -> exists v, depthFromVec (xyz_of it) = Some v) /\
     (forall v, depthFromVec (xyz_of it) = Some v ->
        0 <= v < 65536 /\
        (inject_Z v * inject_Z v <= 65536 * s * ((1 + eps22) * (1 + eps22)))%Q /\
        (65536 * s * ((1 - eps22) * (1 - eps22))
           < (inject_Z v + 1) * (inject_Z v + 1))%Q)) /\
  (forall xyz : Point3d,
     moderate (p3x xyz) = true -> moderate (p3y xyz) = true -> moderate (p3z xyz) = true ->
     ((sum_of_squares xyz <= 65025)%Q -> exists v, depthFromVec xyz = Some v) /\
     (forall v, depthFromVec xyz = Some v ->
        0 <= v < 65536 /\
        (inject_Z v * inject_Z v
           <= 65536 * sum_of_squares xyz * ((1 + eps22) * (1 + eps22)))%Q /\
        (65536 * sum_of_squares xyz * ((1 - eps22) * (1 - eps22))
           < (inject_Z v + 1) * (inject_Z v + 1))%Q)).
Proof.
  assert (65025 < inject_Z (2 ^ 253))%Q as Hfar by done.
  split.
  - intros it Hx Hxf Hy Hyf Hz Hzf s.
    assert (sum_of_squares (xyz_of it) == s)%Q as Hs.
    { unfold sum_of_squares, xyz_of, s. cbn [p3x p3y p3z].
      by rewrite !SF2Q_to_double. }
    pose proof (sum_of_squares_nonneg (xyz_of it)) as Hs0.
    unfold depthFromVec.
    destruct (mag_bounds (xyz_of it)) as [[Hinf Hbig] | (Hv & Hf & H0 & Hb)];
      [by apply to_double_moderate..| |].
    + rewrite Hinf. split; [|done]. intros Hle. rewrite Hs in Hbig. lra.
    + rewrite Hs in Hs0, Hb. by apply pixel_val_bounds.
  - intros xyz Hx Hy Hz. unfold depthFromVec.
    pose proof (sum_of_squares_nonneg xyz) as Hs0.
    destruct (mag_bounds xyz Hx Hy Hz) as [[Hinf Hbig] | (Hv & Hf & H0 & Hb)].
    + rewrite Hinf. split; [|done]. intros Hs. lra.
    + by apply pixel_val_bounds.
Qed.

(** C1, two instances.  The float point (3, 0, 4), of magnitude 5 and forward
    distance 4, is encoded as 1280, and 1280 meets the two bounds.  The
    point (0.75, -1.25, 1.75), given by its doubles, has a defined value. *)
Lemma depthFromVec_magnitude_witness :
  (valid_binary prec32 emax32 (x (point 3 0 4)) = true /\
   isfinite (x (point 3 0 4)) = true /\
   valid_binary prec32 emax32 (y (point 3 0 4)) = true /\
   isfinite (y (point 3 0 4)) = true /\
   valid_binary prec32 emax32 (z (point 3 0 4)) = true /\
   isfinite (z (point 3 0 4)) = true /\
   depthFromVec (xyz_of (point 3 0 4)) = Some 1280 /\
   (0 <= 1280 < 65536 /\
    (inject_Z 1280 * inject_Z 1280
       <= 65536 * (SF2Q (x (point 3 0 4)) * SF2Q (x (point 3 0 4))
                   + SF2Q (y (point 3 0 4)) * SF2Q (y (point 3 0 4))
                   + SF2Q (z (point 3 0 4)) * SF2Q (z (point 3 0 4)))
          * ((1 + eps22) * (1 + eps22)))%Q /\
    (65536 * (SF2Q (x (point 3 0 4)) * SF2Q (x (point 3 0 4))
              + SF2Q (y (point 3 0 4)) * SF2Q (y (point 3 0 4))
              + SF2Q (z (point 3 0 4)) * SF2Q (z (point 3 0 4)))
       * ((1 - eps22) * (1 - eps22))
       < (inject_Z 1280 + 1) * (inject_Z 1280 + 1))%Q)) /\
  (moderate (p3x (xyz_of (point_dyadic 3 (-5) 7 (-2)))) = true /\
   moderate (p3y (xyz_of (point_dyadic 3 (-5) 7 (-2)))) = true /\
   moderate (p3z (xyz_of (point_dyadic 3 (-5) 7 (-2)))) = true /\
   (sum_of_squares (xyz_of (point_dyadic 3 (-5) 7 (-2))) <= 65025)%Q /\
   exists v, depthFromVec (xyz_of (point_dyadic 3 (-5) 7 (-2))) = Some v).
Proof.
  split.
  - do 7 (split; [reflexivity|]).
    apply (proj2 (proj1 depthFromVec_magnitude (point 3 0 4)
                    eq_refl eq_refl eq_refl eq_refl eq_refl eq_refl) 1280).
    reflexivity.
  - do 3 (split; [reflexivity|]). split; [by vm_compute|].
    apply (proj1 (proj2 depthFromVec_magnitude (xyz_of (point_dyadic 3 (-5) 7 (-2)))
                    eq_refl eq_refl eq_refl)).
    by vm_compute.
Defined.
